(** * circuit_sim: a series RC loop drawn as moving charge markers

    A shallow embedding of [circuit_sim.py] and the properties of its
    numeric core: the polyline helpers, the series RC physics, the
    arc-length layout of the component symbols and the electron markers.

    Numbers.  Python's [float] is modelled by the real numbers: the values
    the user types (voltage, resistances, capacitances, coordinates, time
    steps) are finite reals and arithmetic on them is exact.  The two
    places where the program itself makes a value that is not a finite
    number, [float("inf")] for the resistance of an empty resistor list and
    the product [Req * Ceq] taken with it, are kept: [pyfloat] adds the
    IEEE specials to the reals.  Rounding, overflow and signed zeros are
    outside this model.

    Exceptions.  Python's [/] and [%] raise [ZeroDivisionError] on a zero
    divisor and indexing raises [IndexError] out of range; both are kept,
    through the [result] monad.

    State.  [ElectronSystem.update] mutates the electrons in place; here
    it returns the system after the update.  Each electron's turtle is
    kept as the point it was last sent to, and [random.random()] as the
    sequence of its values.  The drawing calls of [TurtleRenderer] and the
    prompts are left out; of [Canvas.run], what it computes before the
    animation loop and the speed expression of the loop are kept (the loop
    itself never ends). *)

From Stdlib Require Import String.
From Stdlib Require Import Reals Lra Lia List ZArith Bool Permutation.
Import ListNotations.
Local Open Scope R_scope.

(** ** Exceptions *)

Inductive exn : Set :=
| ZeroDivisionError
| IndexError.

Inductive result (A : Type) : Type :=
| Ok (a : A)
| Raise (e : exn).

Arguments Ok {A} a.
Arguments Raise {A} e.

Definition bind {A B : Type} (m : result A) (k : A -> result B) : result B :=
  match m with
  | Ok a => k a
  | Raise e => Raise e
  end.

Notation "x <- m ;; k" := (bind m (fun x => k))
  (at level 61, m at next level, right associativity).

(** [for x in xs: ...] with a body that may raise, collecting the results. *)
Fixpoint mapM {A B : Type} (f : A -> result B) (xs : list A) : result (list B) :=
  match xs with
  | [] => Ok []
  | x :: xs' => y <- f x ;; ys <- mapM f xs' ;; Ok (y :: ys)
  end.

(** ** Numbers *)

(** [a / b] on two finite floats. *)
Definition rdiv (a b : R) : result R :=
  if Req_dec_T b 0 then Raise ZeroDivisionError else Ok (a / b).

(** [a % b] on two finite floats: the remainder has the sign of [b]. *)
Definition floor_mod (a b : R) : R := a - b * IZR (Int_part (a / b)).

Definition rmod (a b : R) : result R :=
  if Req_dec_T b 0 then Raise ZeroDivisionError else Ok (floor_mod a b).

(** [math.hypot]. *)
Definition hypot (x y : R) : R := sqrt (x * x + y * y).

(** [sum(xs)]: the accumulator starts at 0 and runs left to right. *)
Definition pysum (xs : list R) : R := fold_left Rplus xs 0.

(** [x or 1.0]: a float is falsy exactly when it is zero. *)
Definition or_one (x : R) : R := if Req_dec_T x 0 then 1 else x.

(** A float that may be one of the IEEE specials. *)
Inductive pyfloat : Set :=
| Fin (r : R)
| PInf
| NInf
| NaN.

(** [inf * r] (or [-inf * r] when [flip]) for a finite [r]. *)
Definition signed_inf (r : R) (flip : bool) : pyfloat :=
  if Rlt_dec 0 r then (if flip then NInf else PInf)
  else if Rlt_dec r 0 then (if flip then PInf else NInf)
  else NaN.

Definition fmul (x y : pyfloat) : pyfloat :=
  match x, y with
  | NaN, _ | _, NaN => NaN
  | Fin a, Fin b => Fin (a * b)
  | Fin a, PInf | PInf, Fin a => signed_inf a false
  | Fin a, NInf | NInf, Fin a => signed_inf a true
  | PInf, PInf | NInf, NInf => PInf
  | PInf, NInf | NInf, PInf => NInf
  end.

Definition fneg (x : pyfloat) : pyfloat :=
  match x with
  | Fin a => Fin (- a)
  | PInf => NInf
  | NInf => PInf
  | NaN => NaN
  end.

(** [x / y]: Python tests the divisor for zero before anything else. *)
Definition fdiv (x y : pyfloat) : result pyfloat :=
  match y with
  | Fin b =>
      if Req_dec_T b 0 then Raise ZeroDivisionError
      else Ok match x with
              | Fin a => Fin (a / b)
              | PInf => signed_inf b false
              | NInf => signed_inf b true
              | NaN => NaN
              end
  | PInf | NInf => Ok match x with Fin _ => Fin 0 | _ => NaN end
  | NaN => Ok NaN
  end.

(** [math.exp]. *)
Definition fexp (x : pyfloat) : pyfloat :=
  match x with
  | Fin a => Fin (exp a)
  | PInf => PInf
  | NInf => Fin 0
  | NaN => NaN
  end.

(** [math.isfinite]. *)
Definition isfinite (x : pyfloat) : bool :=
  match x with Fin _ => true | _ => false end.

(** [x <= 0]; every comparison with NaN is false. *)
Definition fle0 (x : pyfloat) : bool :=
  match x with
  | Fin a => if Rle_dec a 0 then true else false
  | NInf => true
  | PInf | NaN => false
  end.

(** ** Polyline helpers *)

Definition Point : Type := R * R.

(** [xs[i]] for [i >= 0]. *)
Definition index {A : Type} (xs : list A) (i : nat) : result A :=
  match nth_error xs i with
  | Some x => Ok x
  | None => Raise IndexError
  end.

(** [xs[-k]] for [k >= 1]. *)
Definition index_back {A : Type} (xs : list A) (k : nat) : result A :=
  if (k <=? length xs)%nat then index xs (length xs - k) else Raise IndexError.

(** [range(n)] for a Python int [n]; empty when [n <= 0]. *)
Definition range (n : Z) : list Z := map Z.of_nat (seq 0 (Z.to_nat n)).

(** [math.hypot(pts[i+1][0]-pts[i][0], pts[i+1][1]-pts[i][1])]. *)
Definition segment_length (pts : list Point) (i : nat) : result R :=
  q <- index pts (i + 1) ;;
  p <- index pts i ;;
  Ok (hypot (fst q - fst p) (snd q - snd p)).

Definition polyline_lengths (pts : list Point) : result (list R) :=
  mapM (segment_length pts) (seq 0 (length pts - 1)).

(** The [# fallback at end] of [position_dir_on_polyline]. *)
Definition polyline_end (pts : list Point) : result (R * R * R * R) :=
  p1 <- index_back pts 2 ;;
  p2 <- index_back pts 1 ;;
  let L := or_one (hypot (fst p2 - fst p1) (snd p2 - snd p1)) in
  x <- index_back pts 1 ;;
  y <- index_back pts 1 ;;
  ux <- rdiv (fst p2 - fst p1) L ;;
  uy <- rdiv (snd p2 - snd p1) L ;;
  Ok (fst x, snd y, ux, uy).

(** The [for i, L in enumerate(seglens)] loop, entered at index [i] with
    the remaining budget [s]. *)
Fixpoint polyline_walk (pts : list Point) (i : nat) (seglens : list R) (s : R)
  : result (R * R * R * R) :=
  match seglens with
  | [] => polyline_end pts
  | L :: rest =>
      if Rle_dec s L then
        p1 <- index pts i ;;
        p2 <- index pts (i + 1) ;;
        if Req_dec_T L 0 then Ok (fst p1, snd p1, 1, 0)
        else
          u <- rdiv s L ;;
          let x := fst p1 + u * (fst p2 - fst p1) in
          let y := snd p1 + u * (snd p2 - snd p1) in
          ux <- rdiv (fst p2 - fst p1) L ;;
          uy <- rdiv (snd p2 - snd p1) L ;;
          Ok (x, y, ux, uy)
      else polyline_walk pts (S i) rest (s - L)
  end.

Definition position_dir_on_polyline (pts : list Point) (seglens : list R) (s : R)
  : result (R * R * R * R) :=
  polyline_walk pts 0 seglens s.

(** ** Template geometry *)

Module RectLoopTemplate.

Record t : Type := make {
  W : R;
  H : R;
  margin : R;
  wire : R;          (* [self.t], the wire thickness *)
  outer_inset : R;
  inner_inset : R;
  mid_inset : R
}.

Definition init (width height margin wire_thickness : R) : t :=
  {| W := width;
     H := height;
     margin := margin;
     wire := wire_thickness;
     outer_inset := margin;
     inner_inset := margin + wire_thickness;
     mid_inset := margin + wire_thickness / 2 |}.

Definition _rect_path (self : t) (inset : R) : list Point :=
  let x := W self / 2 - inset in
  let y := H self / 2 - inset in
  [(- x, - y); (- x, y); (x, y); (x, - y); (- x, - y)].

Definition outer_path (self : t) := _rect_path self (outer_inset self).
Definition inner_path (self : t) := _rect_path self (inner_inset self).
Definition mid_path (self : t) := _rect_path self (mid_inset self).

End RectLoopTemplate.

(** ** Components (data only) *)

Module Resistor.
Record t : Type := make { R : Rdefinitions.R; name : string }.
End Resistor.

Module Capacitor.
Record t : Type := make { C : R; name : string }.
End Capacitor.

(** ** Physics (series loop) *)

Module SeriesRCPhysics.

Record t : Type := make {
  V : R;
  resistors : list Resistor.t;
  capacitors : list Capacitor.t;
  Req : pyfloat;
  Ceq : option R;        (* [None] is Python's [None] *)
  tau : option pyfloat
}.

Definition init (V : R) (resistors : list Resistor.t)
    (capacitors : list Capacitor.t) : result t :=
  let Req :=
    match resistors with
    | [] => PInf
    | _ :: _ => Fin (pysum (map Resistor.R resistors))
    end in
  Ceq <- match capacitors with
         | [] => Ok None
         | _ :: _ =>
             invs <- mapM (fun c => rdiv 1 (Capacitor.C c)) capacitors ;;
             let inv := pysum invs in
             if Rlt_dec 0 inv then (c <- rdiv 1 inv ;; Ok (Some c))
             else Ok (Some 0)
         end ;;
  let tau :=
    match Ceq with
    | Some c => Some (fmul Req (Fin c))
    | None => None
    end in
  Ok {| V := V; resistors := resistors; capacitors := capacitors;
        Req := Req; Ceq := Ceq; tau := tau |}.

(** Return I(t) in A for a step applied at t=0. *)
Definition current (self : t) (t : R) : result pyfloat :=
  if negb (isfinite (Req self)) || fle0 (Req self) then Ok (Fin 0)
  else
    match Ceq self with
    | None => fdiv (Fin (V self)) (Req self)
    | Some _ =>
        match tau self with
        | None => Ok (Fin 0)
        | Some tau =>
            if fle0 tau then Ok (Fin 0)
            else
              q <- fdiv (Fin (V self)) (Req self) ;;
              e <- fdiv (fneg (Fin t)) tau ;;
              Ok (fmul q (fexp e))
        end
    end.

End SeriesRCPhysics.

(** ** Electron markers *)

Module Electron.
(** [t] is the marker's turtle, kept as the point it was last sent to. *)
Record electron : Type := make { s : R; t : Point }.
End Electron.

Module ElectronSystem.

Record t : Type := make {
  pts : list Point;
  seglens : list R;
  totalL : R;
  electrons : list Electron.electron
}.

(** [random i] is the value of the [i]-th call of [random.random()]; a
    fresh turtle sits at the origin. *)
Definition init (path_pts : list Point) (n : Z) (random : nat -> R) : result t :=
  seglens <- polyline_lengths path_pts ;;
  let totalL := or_one (pysum seglens) in
  Ok {| pts := path_pts;
        seglens := seglens;
        totalL := totalL;
        electrons :=
          map (fun i => Electron.make (random i * totalL) (0, 0))
              (seq 0 (Z.to_nat n)) |}.

Definition move (self : t) (dt speed : R) (e : Electron.electron)
  : result Electron.electron :=
  s' <- rmod (Electron.s e + speed * dt) (totalL self) ;;
  r <- position_dir_on_polyline (pts self) (seglens self) s' ;;
  let '(x, y, _, _) := r in
  Ok (Electron.make s' (x, y)).

Definition update (self : t) (dt speed : R) : result t :=
  es <- mapM (move self dt speed) (electrons self) ;;
  Ok {| pts := pts self; seglens := seglens self; totalL := totalL self;
        electrons := es |}.

End ElectronSystem.

(** ** Layout of components along path *)

Definition component_centers_along_path (totalL : R) (n_components : Z)
    (start_frac end_frac : R) : result (list R) :=
  if (n_components <=? 0)%Z then Ok []
  else
    let a := totalL * start_frac in
    let b := totalL * end_frac in
    if (n_components =? 1)%Z then Ok [(a + b) / 2]
    else
      step <- rdiv (b - a) (IZR (n_components - 1)) ;;
      Ok (map (fun i => a + IZR i * step) (range n_components)).

(** The default arguments [start_frac=0.08], [end_frac=0.92]. *)
Definition start_frac_default : R := 0.08.
Definition end_frac_default : R := 0.92.

(** ** Canvas / simulation *)

Module Canvas.

(** What [run] has computed when the animation loop starts: the electron
    system, the layout of the symbols and, for each token of [order], the
    point and direction its symbol is drawn at. *)
Record scene : Type := make {
  electrons : ElectronSystem.t;
  seglens : list R;
  totalL : R;
  centers_s : list R;
  drawn : list (string * (R * R * R * R))
}.

Definition place (mid_pts : list Point) (seglens : list R)
    (ts : string * R) : result (string * (R * R * R * R)) :=
  r <- position_dir_on_polyline mid_pts seglens (snd ts) ;;
  Ok (fst ts, r).

Definition run_setup (template : RectLoopTemplate.t)
    (order : list string) (random : nat -> R) : result scene :=
  let mid_pts := RectLoopTemplate.mid_path template in
  electrons <- ElectronSystem.init mid_pts 35 random ;;
  seglens <- polyline_lengths mid_pts ;;
  let totalL := or_one (pysum seglens) in
  centers_s <- component_centers_along_path totalL (Z.of_nat (length order))
                 start_frac_default end_frac_default ;;
  drawn <- mapM (place mid_pts seglens) (combine order centers_s) ;;
  Ok {| electrons := electrons; seglens := seglens; totalL := totalL;
        centers_s := centers_s; drawn := drawn |}.

(** [k = 60.0]: current (A) to world units per second. *)
Definition k : R := 60.


End Canvas.

(** ** Turtle rendering *)

(** [range(a, b)] for Python ints; empty when [b <= a]. *)
Definition range_from (a b : Z) : list Z :=
  map (fun i => (a + Z.of_nat i)%Z) (seq 0 (Z.to_nat (b - a))).

Module Turtle.

(** A turtle of the [turtle] module, as far as drawing goes: where it is,
    whether its pen is down, and the strokes it has drawn, oldest first. *)
Record t : Type := make {
  pos : Point;
  isdown : bool;
  strokes : list (Point * Point)
}.

(** [turtle.Turtle(...)]: at the origin, pen down, nothing drawn. *)
Definition fresh : t := make (0, 0) true [].

Definition up (self : t) : t := make (pos self) false (strokes self).

Definition down (self : t) : t := make (pos self) true (strokes self).

(** [goto(x, y)] draws the line from the old position when the pen is
    down. *)
Definition goto (self : t) (x y : R) : t :=
  make (x, y) (isdown self)
       (if isdown self then strokes self ++ [(pos self, (x, y))] else strokes self).

End Turtle.

Module TurtleRenderer.

(** The two turtles of the renderer; colour, pen size and speed are left
    out. *)
Record t : Type := make { wire : Turtle.t; sym : Turtle.t }.

Definition init : t := make Turtle.fresh Turtle.fresh.

Definition draw_polyline (self : t) (pts : list Point) : result t :=
  let w := Turtle.up (wire self) in
  p0 <- index pts 0 ;;
  let w := Turtle.goto w (fst p0) (snd p0) in
  let w := Turtle.down w in
  Ok (make (fold_left (fun w p => Turtle.goto w (fst p) (snd p)) (tl pts) w)
           (sym self)).

Definition draw_wire (self : t) (outer_pts inner_pts : list Point) : result t :=
  self <- draw_polyline self outer_pts ;;
  draw_polyline self inner_pts.

(** The local function [plate] of [draw_battery_at] (and [plate_line] of
    [draw_capacitor_at]), on the symbol turtle. *)
Definition plate (nx ny : R) (s : Turtle.t) (cx cy length : R) : Turtle.t :=
  let hx := nx * (length / 2) in
  let hy := ny * (length / 2) in
  let s := Turtle.up s in
  let s := Turtle.goto s (cx - hx) (cy - hy) in
  let s := Turtle.down s in
  Turtle.goto s (cx + hx) (cy + hy).

Definition draw_battery_at (self : t) (x y ux uy plate_gap short long : R) : t :=
  let nx := - uy in
  let ny := ux in
  let c1x := x - ux * plate_gap in
  let c1y := y - uy * plate_gap in
  let c2x := x + ux * plate_gap in
  let c2y := y + uy * plate_gap in
  let s := plate nx ny (sym self) c1x c1y short in
  let s := plate nx ny s c2x c2y long in
  make (wire self) s.

(** One turn of the zigzag loop, for the index [k]. *)
Definition zigzag_step (x1 y1 ux uy nx ny stepL amp : R) (s : Turtle.t) (k : Z)
  : Turtle.t :=
  let px := x1 + ux * (IZR k * stepL) in
  let py := y1 + uy * (IZR k * stepL) in
  let sign := if (k mod 2 =? 1)%Z then 1%Z else (-1)%Z in
  let px := px + nx * amp * IZR sign in
  let py := py + ny * amp * IZR sign in
  Turtle.goto s px py.

Definition draw_resistor_at (self : t) (x y ux uy length : R) (zigzags : Z) (amp : R)
  : result t :=
  let nx := - uy in
  let ny := ux in
  let half := length / 2 in
  let x1 := x - ux * half in
  let y1 := y - uy * half in
  let x2 := x + ux * half in
  let y2 := y + uy * half in
  let steps := (zigzags * 2)%Z in
  stepL <- rdiv length (IZR steps) ;;
  let s := Turtle.up (sym self) in
  let s := Turtle.goto s x1 y1 in
  let s := Turtle.down s in
  let s := fold_left (zigzag_step x1 y1 ux uy nx ny stepL amp) (range_from 1 steps) s in
  Ok (make (wire self) (Turtle.goto s x2 y2)).

Definition draw_capacitor_at (self : t) (x y ux uy gap plate_len : R) : t :=
  let nx := - uy in
  let ny := ux in
  let c1x := x - ux * gap in
  let c1y := y - uy * gap in
  let c2x := x + ux * gap in
  let c2y := y + uy * gap in
  let s := plate nx ny (sym self) c1x c1y plate_len in
  let s := plate nx ny s c2x c2y plate_len in
  make (wire self) s.

(** The default arguments of the three symbols. *)
Definition battery_default (self : t) (x y ux uy : R) : t :=
  draw_battery_at self x y ux uy 7 10 18.
Definition resistor_default (self : t) (x y ux uy : R) : result t :=
  draw_resistor_at self x y ux uy 28 5 4.
Definition capacitor_default (self : t) (x y ux uy : R) : t :=
  draw_capacitor_at self x y ux uy 6 16.

End TurtleRenderer.

(** ** The static scene of [Canvas.run] *)

(** A loop whose body may raise, threading a state. *)
Fixpoint foldM {A S : Type} (f : S -> A -> result S) (xs : list A) (s : S) : result S :=
  match xs with
  | [] => Ok s
  | x :: xs' => s' <- f s x ;; foldM f xs' s'
  end.

(** The body of the loop [for tok, s0 in zip(order, centers_s)], once the
    position and direction at [s0] are known. *)
Definition draw_token (renderer : TurtleRenderer.t) (d : string * (R * R * R * R))
  : result TurtleRenderer.t :=
  let tok := fst d in
  let '(x, y, ux, uy) := snd d in
  if String.eqb tok "B" then Ok (TurtleRenderer.battery_default renderer x y ux uy)
  else if String.prefix "R" tok then TurtleRenderer.resistor_default renderer x y ux uy
  else if String.prefix "C" tok then Ok (TurtleRenderer.capacitor_default renderer x y ux uy)
  else Ok renderer.

(** [Canvas.run] up to the animation loop: the wire, the electron system,
    the layout, and the symbols.  The source computes each position just
    before it draws the symbol; here the positions come from
    [Canvas.run_setup] first, which changes nothing in what is returned or
    raised. *)
Definition run_static (renderer : TurtleRenderer.t) (template : RectLoopTemplate.t)
    (order : list string) (random : nat -> R)
  : result (TurtleRenderer.t * Canvas.scene) :=
  let outer_pts := RectLoopTemplate.outer_path template in
  let inner_pts := RectLoopTemplate.inner_path template in
  renderer <- TurtleRenderer.draw_wire renderer outer_pts inner_pts ;;
  sc <- Canvas.run_setup template order random ;;
  renderer <- foldM draw_token (Canvas.drawn sc) renderer ;;
  Ok (renderer, sc).

(** The number of strokes a token's symbol is made of. *)
Definition strokes_of_token (tok : string) : nat :=
  if String.eqb tok "B" then 2
  else if String.prefix "R" tok then 10
  else if String.prefix "C" tok then 2
  else 0.

(** ** Prompts *)

(** [tok in xs] for strings. *)
Definition str_in (tok : string) (xs : list string) : bool :=
  existsb (String.eqb tok) xs.

(** The loop [for tok in ["B"] + tokens] of [prompt_order]: a token that is
    not used yet is appended and marked as used. *)
Definition append_missing (state : list string * list string) (tok : string)
  : list string * list string :=
  let (order, used) := state in
  if str_in tok used then (order, used) else (order ++ [tok], tok :: used).

(** [prompt_order], as a function of the line that [input] returns, given
    by its words [words = s.split()]; the stripped line is empty exactly
    when it has no word.  The messages printed are left out. *)
Definition prompt_order (resistors : list Resistor.t) (capacitors : list Capacitor.t)
    (words : list string) : list string :=
  let tokens := [] in
  let tokens :=
    match resistors with
    | [] => tokens
    | _ :: _ => tokens ++ map Resistor.name resistors
    end in
  let tokens :=
    match capacitors with
    | [] => tokens
    | _ :: _ => tokens ++ map Capacitor.name capacitors
    end in
  match words with
  | [] => "B"%string :: tokens
  | _ :: _ =>
      let order := words in
      if negb (count_occ string_dec order "B"%string =? 1)%nat then "B"%string :: tokens
      else
        let allowed := "B"%string :: tokens in
        if existsb (fun tok => negb (str_in tok allowed)) order then "B"%string :: tokens
        else
          let used := order in
          fst (fold_left append_missing ("B"%string :: tokens) (order, used))
  end.

(** ** Auxiliary definitions used in the statements *)

(** The equivalent resistance, read off the resistor list. *)
Definition Req_of (rs : list Resistor.t) : pyfloat :=
  match rs with
  | [] => PInf
  | _ :: _ => Fin (pysum (map Resistor.R rs))
  end.

(** The circuit of the specification's examples: 9 V over 3, 2 and 5 ohm
    and 0.01 and 0.02 F. *)
Definition example_resistors : list Resistor.t :=
  [Resistor.make 3 "R1"%string; Resistor.make 2 "R2"%string; Resistor.make 5 "R3"%string].
Definition example_capacitors : list Capacitor.t :=
  [Capacitor.make 0.01 "C1"%string; Capacitor.make 0.02 "C2"%string].


(** The segment lengths of a point list, by recursion on the list; what
    [polyline_lengths] returns ([polyline_lengths_ok]). *)
Fixpoint segment_lengths (pts : list Point) : list R :=
  match pts with
  | p :: (q :: _) as rest =>
      hypot (fst q - fst p) (snd q - snd p) :: segment_lengths rest
  | _ => []
  end.

(** The last two points of a point list with at least two points. *)
Definition last_but_one (pts : list Point) : Point := nth (length pts - 2) pts (0, 0).
Definition last_point (pts : list Point) : Point := nth (length pts - 1) pts (0, 0).

(** [(x, y)] is a convex combination of [p1] and [p2]. *)
Definition on_segment (p1 p2 : Point) (x y : R) : Prop :=
  exists u, 0 <= u <= 1 /\
    x = fst p1 + u * (fst p2 - fst p1) /\ y = snd p1 + u * (snd p2 - snd p1).


(** The total length in the specification's words: the sum of the segment
    lengths, or 1 when that sum is exactly 0. *)
Definition total_length_spec (pts : list Point) : R :=
  let raw := fold_right Rplus 0 (segment_lengths pts) in
  if Req_dec_T raw 0 then 1 else raw.

(** The equivalent capacitance, read off a capacitor list without a zero. *)
Definition Ceq_of (cs : list Capacitor.t) : option R :=
  match cs with
  | [] => None
  | _ :: _ =>
      let inv := pysum (map (fun c => 1 / Capacitor.C c) cs) in
      Some (if Rlt_dec 0 inv then 1 / inv else 0)
  end.


(** A position and direction [(x, y, ux, uy)] that lies on a segment of the
    path [pts] with a direction of length 1. *)
Definition placed_on (pts : list Point) (r : R * R * R * R) : Prop :=
  let '(x, y, ux, uy) := r in
  ux * ux + uy * uy = 1 /\
  exists i p1 p2,
    nth_error pts i = Some p1 /\ nth_error pts (i + 1) = Some p2 /\
    on_segment p1 p2 x y.

(** A stroke: its midpoint, its length, and its scalar product with a
    direction. *)
Definition stroke_mid (st : Point * Point) : Point :=
  ((fst (fst st) + fst (snd st)) / 2, (snd (fst st) + snd (snd st)) / 2).
Definition stroke_length (st : Point * Point) : R :=
  hypot (fst (snd st) - fst (fst st)) (snd (snd st) - snd (fst st)).
Definition stroke_dot (st : Point * Point) (ux uy : R) : R :=
  (fst (snd st) - fst (fst st)) * ux + (snd (snd st) - snd (fst st)) * uy.

(** The strokes that join the points of a list, each to the next. *)
Definition chain (pts : list Point) : list (Point * Point) := combine pts (tl pts).

(** * Properties *)

(** ** The result monad and the numeric helpers *)

Lemma rdiv_ok (a b : R) : b <> 0 -> rdiv a b = Ok (a / b).
Proof.
  intros Hb. unfold rdiv. destruct (Req_dec_T b 0) as [E | _]; [contradiction | reflexivity].
Qed.

Lemma rdiv_zero (a : R) : rdiv a 0 = Raise ZeroDivisionError.
Proof.
  unfold rdiv. destruct (Req_dec_T 0 0) as [_ | N]; [reflexivity | now elim N].
Qed.

Lemma rmod_ok (a b : R) : b <> 0 -> rmod a b = Ok (floor_mod a b).
Proof.
  intros Hb. unfold rmod. destruct (Req_dec_T b 0) as [E | _]; [contradiction | reflexivity].
Qed.

Lemma fold_left_Rplus_acc (xs : list R) (a : R) :
  fold_left Rplus xs a = a + fold_left Rplus xs 0.
Proof.
  revert a. induction xs as [| x xs IH]; intros a; simpl.
  - lra.
  - rewrite (IH (a + x)), (IH (0 + x)). lra.
Qed.

Lemma pysum_nil : pysum [] = 0.
Proof. reflexivity. Qed.

Lemma pysum_cons (x : R) (xs : list R) : pysum (x :: xs) = x + pysum xs.
Proof.
  unfold pysum. simpl. rewrite fold_left_Rplus_acc. lra.
Qed.

Lemma pysum_fold_right (xs : list R) : pysum xs = fold_right Rplus 0 xs.
Proof.
  induction xs as [| x xs IH]; [reflexivity |].
  rewrite pysum_cons, IH. reflexivity.
Qed.

Lemma pysum_nonneg (xs : list R) : Forall (fun x => 0 <= x) xs -> 0 <= pysum xs.
Proof.
  induction 1 as [| x xs Hx _ IH].
  - rewrite pysum_nil. lra.
  - rewrite pysum_cons. lra.
Qed.

Lemma or_one_zero : or_one 0 = 1.
Proof.
  unfold or_one. destruct (Req_dec_T 0 0) as [_ | N]; [reflexivity | now elim N].
Qed.

Lemma or_one_pos (x : R) : 0 <= x -> 0 < or_one x.
Proof.
  intros Hx. unfold or_one. destruct (Req_dec_T x 0); lra.
Qed.

Lemma mapM_ok_map {A B : Type} (f : A -> result B) (g : A -> B) (xs : list A) :
  Forall (fun x => f x = Ok (g x)) xs -> mapM f xs = Ok (map g xs).
Proof.
  induction 1 as [| x xs Hx _ IH]; simpl.
  - reflexivity.
  - rewrite Hx, IH. reflexivity.
Qed.

Lemma mapM_map {A B C : Type} (f : B -> result C) (h : A -> B) (xs : list A) :
  mapM f (map h xs) = mapM (fun x => f (h x)) xs.
Proof.
  induction xs as [| x xs IH]; simpl; [reflexivity | now rewrite IH].
Qed.

Lemma mapM_ext {A B : Type} (f g : A -> result B) (xs : list A) :
  (forall x, f x = g x) -> mapM f xs = mapM g xs.
Proof.
  intros E. induction xs as [| x xs IH]; simpl; [reflexivity | now rewrite E, IH].
Qed.

Lemma mapM_total {A B : Type} (f : A -> result B) (xs : list A) :
  Forall (fun x => exists y, f x = Ok y) xs -> exists ys, mapM f xs = Ok ys.
Proof.
  induction 1 as [| x xs [y Hy] _ [ys IH]]; simpl.
  - now exists [].
  - exists (y :: ys). now rewrite Hy, IH.
Qed.

Lemma mapM_Forall2_total {A B : Type} (f : A -> result B) (P : A -> B -> Prop)
    (xs : list A) :
  (forall x, exists y, f x = Ok y /\ P x y) ->
  exists ys, mapM f xs = Ok ys /\ Forall2 P xs ys.
Proof.
  intros Hf. induction xs as [| x xs (ys & Hys & HP)].
  - exists []. split; [reflexivity | constructor].
  - destruct (Hf x) as (y & Hy & Hxy).
    exists (y :: ys). split.
    + cbn [mapM]. now rewrite Hy, Hys.
    + now constructor.
Qed.

(** ** Physics *)

Section Physics.

Import SeriesRCPhysics.

Lemma init_fields V rs cs p :
  init V rs cs = Ok p ->
  SeriesRCPhysics.V p = V /\ Req p = Req_of rs /\
  ((cs = [] /\ Ceq p = None /\ tau p = None) \/
   (cs <> [] /\ exists c, 0 <= c /\ Ceq p = Some c /\
                          tau p = Some (fmul (Req_of rs) (Fin c)))).
Proof.
  unfold init. intros H.
  destruct cs as [| c0 cs].
  - simpl in H. inversion H; subst; clear H. simpl.
    split; [reflexivity |]. split; [now destruct rs |]. now left.
  - destruct (mapM (fun c => rdiv 1 (Capacitor.C c)) (c0 :: cs)) as [invs | e];
      [| discriminate].
    cbn [bind] in H.
    destruct (Rlt_dec 0 (pysum invs)) as [Hpos | Hneg].
    + rewrite rdiv_ok in H by lra. cbn [bind] in H.
      inversion H; subst; clear H. simpl.
      split; [reflexivity |]. split; [now destruct rs |].
      right. split; [discriminate |].
      exists (1 / pysum invs). split; [| now destruct rs].
      apply Rlt_le. apply Rdiv_lt_0_compat; lra.
    + cbn [bind] in H. inversion H; subst; clear H. simpl.
      split; [reflexivity |]. split; [now destruct rs |].
      right. split; [discriminate |].
      exists 0. split; [lra | now destruct rs].
Qed.

(** Construction fails exactly when some capacitance is zero, and then
    with [ZeroDivisionError]. *)
Lemma init_ok V rs cs :
  Forall (fun c => Capacitor.C c <> 0) cs -> exists p, init V rs cs = Ok p.
Proof.
  intros Hcs. unfold init.
  destruct cs as [| c0 cs]; [simpl; eauto |].
  rewrite (mapM_ok_map _ (fun c => 1 / Capacitor.C c)).
  - cbn [bind]. destruct (Rlt_dec 0 _) as [Hpos | Hneg]; cbn [bind].
    + rewrite rdiv_ok by lra. cbn [bind]. eauto.
    + eauto.
  - eapply Forall_impl; [| exact Hcs]. intros c Hc. now apply rdiv_ok.
Qed.

Lemma init_raises V rs cs :
  Exists (fun c => Capacitor.C c = 0) cs -> init V rs cs = Raise ZeroDivisionError.
Proof.
  intros Hex. unfold init.
  assert (Hm : mapM (fun c => rdiv 1 (Capacitor.C c)) cs = Raise ZeroDivisionError).
  { induction Hex as [c cs Hc | c cs _ IH]; simpl.
    - rewrite Hc, rdiv_zero. reflexivity.
    - unfold rdiv at 1. destruct (Req_dec_T (Capacitor.C c) 0); [reflexivity |].
      cbn [bind]. rewrite IH. reflexivity. }
  destruct cs as [| c0 cs]; [inversion Hex |].
  rewrite Hm. reflexivity.
Qed.

Lemma current_open p t :
  isfinite (Req p) = false \/ fle0 (Req p) = true -> current p t = Ok (Fin 0).
Proof.
  intros [H | H]; unfold current; rewrite H; simpl; [reflexivity |].
  now rewrite orb_true_r.
Qed.

Lemma fle0_Fin_true r : fle0 (Fin r) = true <-> r <= 0.
Proof.
  simpl. destruct (Rle_dec r 0); split; intros; try lra; try discriminate; reflexivity.
Qed.

Lemma fle0_Fin_false r : fle0 (Fin r) = false <-> 0 < r.
Proof.
  simpl. destruct (Rle_dec r 0); split; intros; try lra; try discriminate; reflexivity.
Qed.

Lemma current_resistive p t r :
  Req p = Fin r -> 0 < r -> Ceq p = None ->
  current p t = Ok (Fin (SeriesRCPhysics.V p / r)).
Proof.
  intros HR Hr HC. unfold current. rewrite HR, HC.
  cbn [isfinite negb orb]. rewrite (proj2 (fle0_Fin_false r) Hr).
  unfold fdiv. destruct (Req_dec_T r 0); [lra | reflexivity].
Qed.

Lemma current_degenerate p t r c x :
  Req p = Fin r -> 0 < r -> Ceq p = Some c -> tau p = Some (Fin x) -> x <= 0 ->
  current p t = Ok (Fin 0).
Proof.
  intros HR Hr HC HT Hx. unfold current. rewrite HR, HC, HT.
  cbn [isfinite negb orb]. rewrite (proj2 (fle0_Fin_false r) Hr).
  now rewrite (proj2 (fle0_Fin_true x) Hx).
Qed.

Lemma current_transient p t r c x :
  Req p = Fin r -> 0 < r -> Ceq p = Some c -> tau p = Some (Fin x) -> 0 < x ->
  current p t = Ok (Fin (SeriesRCPhysics.V p / r * exp (- t / x))).
Proof.
  intros HR Hr HC HT Hx. unfold current. rewrite HR, HC, HT.
  cbn [isfinite negb orb]. rewrite (proj2 (fle0_Fin_false r) Hr).
  rewrite (proj2 (fle0_Fin_false x) Hx).
  unfold fdiv, fneg.
  destruct (Req_dec_T r 0); [lra |]. destruct (Req_dec_T x 0); [lra |].
  reflexivity.
Qed.

Lemma init_Req_shape V rs cs p :
  init V rs cs = Ok p ->
  (rs = [] /\ Req p = PInf) \/ (rs <> [] /\ exists r, Req p = Fin r).
Proof.
  intros H. destruct (init_fields _ _ _ _ H) as (_ & HR & _).
  rewrite HR. destruct rs as [| r0 rs]; simpl.
  - now left.
  - right. split; [discriminate | eauto].
Qed.

(** After a successful construction with capacitors and a finite
    resistance the time constant is the finite product [Req * Ceq]. *)
Lemma init_tau_finite V rs cs p r :
  init V rs cs = Ok p -> cs <> [] -> Req p = Fin r ->
  exists c, 0 <= c /\ Ceq p = Some c /\ tau p = Some (Fin (r * c)).
Proof.
  intros H Hcs HR. destruct (init_fields _ _ _ _ H) as (_ & HR' & [(E & _) | (_ & c & Hc & HC & HT)]).
  - contradiction.
  - exists c. split; [assumption |]. split; [assumption |].
    rewrite HT, <- HR', HR. reflexivity.
Qed.

(** Once the object exists, [current] raises nothing and returns a finite
    number, whatever the time. *)
Lemma current_finite V rs cs p t :
  init V rs cs = Ok p -> exists i, current p t = Ok (Fin i).
Proof.
  intros H.
  destruct (init_Req_shape _ _ _ _ H) as [(_ & HR) | (_ & r & HR)].
  - exists 0. apply current_open. left. now rewrite HR.
  - destruct (Rle_dec r 0) as [Hle | Hgt].
    + exists 0. apply current_open. right. rewrite HR. now apply fle0_Fin_true.
    + assert (Hr : 0 < r) by lra.
      destruct (init_fields _ _ _ _ H) as (_ & _ & [(E & HC & _) | (Hcs & _)]).
      * eexists. eapply current_resistive; eauto.
      * destruct (init_tau_finite _ _ _ _ _ H Hcs HR) as (c & _ & HC & HT).
        destruct (Rle_dec (r * c) 0) as [Hx | Hx].
        -- exists 0. eapply current_degenerate; eauto.
        -- eexists. eapply current_transient; eauto. lra.
Qed.

(** Without a capacitance of zero nothing raises: the object is built and
    [current] returns a finite number at every time. *)
Lemma physics_total V rs cs t :
  Forall (fun c => Capacitor.C c <> 0) cs ->
  exists p i, init V rs cs = Ok p /\ current p t = Ok (Fin i).
Proof.
  intros Hcs. destruct (init_ok V rs cs Hcs) as (p & Hp).
  destruct (current_finite V rs cs p t Hp) as (i & Hi). eauto.
Qed.






(** C2, at the failing input.  A capacitance of zero makes the constructor
    raise [ZeroDivisionError]: [1.0/c.C] is evaluated before any guard. *)
Theorem init_zero_capacitance_raises :
  init 9 [Resistor.make 1 "R1"%string] [Capacitor.make 0 "C1"%string] = Raise ZeroDivisionError.
Proof.
  apply init_raises. constructor. reflexivity.
Qed.

(** *** The transient of an RC loop *)





(** An RC loop: an object built by [init] from a non-empty capacitor list,
    with a finite resistance [r > 0] and a finite time constant [x > 0]. *)
Section RCLoop.

Variables (V : R) (rs : list Resistor.t) (cs : list Capacitor.t).
Variables (p : SeriesRCPhysics.t) (r x : R).

Hypothesis Hinit : init V rs cs = Ok p.
Hypothesis Hcs : cs <> [].
Hypothesis HReq : Req p = Fin r.
Hypothesis Hr : 0 < r.
Hypothesis Htau : tau p = Some (Fin x).
Hypothesis Hx : 0 < x.




End RCLoop.





(** *** The examples of the specification *)

(** Resistors only: 9 V over 3 + 2 + 5 ohm gives 0.9 A at every time. *)
Example resistive_example t :
  exists p, init 9 example_resistors [] = Ok p /\ current p t = Ok (Fin (9 / 10)).
Proof.
  eexists. split; [reflexivity |].
  rewrite (current_resistive _ t (0 + 3 + 2 + 5));
    [do 2 f_equal; cbn; lra | reflexivity | lra | reflexivity].
Qed.

(** No resistor: the current is 0 at every time, whatever the capacitors. *)
Example open_loop_example t :
  exists p, init 9 [] example_capacitors = Ok p /\ current p t = Ok (Fin 0).
Proof.
  destruct (init_ok 9 [] example_capacitors) as (p & Hp).
  { unfold example_capacitors. repeat constructor; cbn; lra. }
  exists p. split; [exact Hp |].
  apply current_open. left.
  destruct (init_fields _ _ _ _ Hp) as (_ & -> & _). reflexivity.
Qed.

End Physics.

(** ** Polylines *)

Section Polyline.

Lemma hypot_nonneg x y : 0 <= hypot x y.
Proof. apply sqrt_pos. Qed.

Lemma hypot_sqr x y : hypot x y * hypot x y = x * x + y * y.
Proof. unfold hypot. apply sqrt_sqrt. nra. Qed.

Lemma hypot_0_0 : hypot 0 0 = 0.
Proof.
  unfold hypot. replace (0 * 0 + 0 * 0) with 0 by lra. apply sqrt_0.
Qed.

(** A direction divided by its length is a unit vector. *)
Lemma unit_tangent x y :
  hypot x y <> 0 ->
  (x / hypot x y) * (x / hypot x y) + (y / hypot x y) * (y / hypot x y) = 1.
Proof.
  intros Hne. pose proof (hypot_sqr x y) as Hs.
  replace (x / hypot x y * (x / hypot x y) + y / hypot x y * (y / hypot x y))
    with ((x * x + y * y) / (hypot x y * hypot x y)) by (field; assumption).
  rewrite Hs. field. rewrite <- Hs. nra.
Qed.

Lemma segment_lengths_nonneg pts : Forall (fun L => 0 <= L) (segment_lengths pts).
Proof.
  induction pts as [| p pts IH]; [constructor |].
  destruct pts as [| q pts]; [constructor |].
  cbn [segment_lengths]. constructor; [apply hypot_nonneg | exact IH].
Qed.

Lemma index_middle {A : Type} (pre : list A) (x : A) (post : list A) :
  index (pre ++ x :: post) (length pre) = Ok x.
Proof.
  unfold index. rewrite nth_error_app2 by lia. now rewrite Nat.sub_diag.
Qed.

Lemma index_nth {A : Type} (xs : list A) (i : nat) (d : A) :
  (i < length xs)%nat -> index xs i = Ok (nth i xs d).
Proof.
  intros Hi. unfold index. now rewrite (nth_error_nth' xs d Hi).
Qed.

Lemma segment_length_shift p pts i :
  segment_length (p :: pts) (S i) = segment_length pts i.
Proof. reflexivity. Qed.

(** [polyline_lengths] raises nothing, whatever the number of points. *)
Lemma polyline_lengths_ok pts : polyline_lengths pts = Ok (segment_lengths pts).
Proof.
  unfold polyline_lengths.
  induction pts as [| p pts IH]; [reflexivity |].
  destruct pts as [| q pts]; [reflexivity |].
  replace (length (p :: q :: pts) - 1)%nat with (S (length (q :: pts) - 1))
    by (cbn [length]; lia).
  rewrite <- cons_seq, <- seq_shift. cbn [mapM].
  rewrite (mapM_map (segment_length (p :: q :: pts)) S).
  rewrite (mapM_ext _ (segment_length (q :: pts)))
    by (intros i; apply segment_length_shift).
  rewrite IH. reflexivity.
Qed.

Lemma polyline_end_ok pts :
  (2 <= length pts)%nat ->
  polyline_end pts =
    Ok (let p1 := last_but_one pts in
        let p2 := last_point pts in
        let L := or_one (hypot (fst p2 - fst p1) (snd p2 - snd p1)) in
        (fst p2, snd p2, (fst p2 - fst p1) / L, (snd p2 - snd p1) / L)).
Proof.
  intros Hlen. unfold polyline_end, index_back.
  destruct (Nat.leb_spec 2 (length pts)) as [_ | Hlt]; [| lia].
  destruct (Nat.leb_spec 1 (length pts)) as [_ | Hlt]; [| lia].
  rewrite (index_nth pts (length pts - 2) (0, 0)) by lia.
  rewrite (index_nth pts (length pts - 1) (0, 0)) by lia.
  cbn [bind]. fold (last_but_one pts). fold (last_point pts).
  assert (Hne : or_one (hypot (fst (last_point pts) - fst (last_but_one pts))
                              (snd (last_point pts) - snd (last_but_one pts))) <> 0).
  { pose proof (or_one_pos _ (hypot_nonneg (fst (last_point pts) - fst (last_but_one pts))
                                           (snd (last_point pts) - snd (last_but_one pts)))).
    lra. }
  rewrite !rdiv_ok by exact Hne. reflexivity.
Qed.

Lemma polyline_end_short pts :
  (length pts < 2)%nat -> polyline_end pts = Raise IndexError.
Proof.
  intros Hlen. unfold polyline_end, index_back.
  destruct (Nat.leb_spec 2 (length pts)) as [Hge | _]; [lia | reflexivity].
Qed.

Lemma segment_lengths_cons2 (p q : Point) (post : list Point) :
  segment_lengths (p :: q :: post) =
    hypot (fst q - fst p) (snd q - snd p) :: segment_lengths (q :: post).
Proof. reflexivity. Qed.

Lemma index_middle_next {A : Type} (pre : list A) (x y : A) (post : list A) :
  index (pre ++ x :: y :: post) (length pre + 1) = Ok y.
Proof.
  replace (pre ++ x :: y :: post) with ((pre ++ [x]) ++ y :: post)
    by (now rewrite <- app_assoc).
  replace (length pre + 1)%nat with (length (pre ++ [x]))
    by (now rewrite length_app).
  apply index_middle.
Qed.

(** One turn of the loop, at the segment from [p] to [q] that follows the
    points [pre]. *)
Lemma polyline_walk_step (pre : list Point) (p q : Point) (post : list Point) s :
  let pts := pre ++ p :: q :: post in
  let L := hypot (fst q - fst p) (snd q - snd p) in
  polyline_walk pts (length pre) (L :: segment_lengths (q :: post)) s =
    if Rle_dec s L then
      if Req_dec_T L 0 then Ok (fst p, snd p, 1, 0)
      else Ok (fst p + s / L * (fst q - fst p), snd p + s / L * (snd q - snd p),
               (fst q - fst p) / L, (snd q - snd p) / L)
    else polyline_walk pts (length (pre ++ [p])) (segment_lengths (q :: post)) (s - L).
Proof.
  intros pts L. cbn [polyline_walk].
  destruct (Rle_dec s L) as [Hle | Hgt].
  - unfold pts. rewrite index_middle, index_middle_next. cbn [bind].
    destruct (Req_dec_T L 0) as [E | Hne]; [reflexivity |].
    rewrite !rdiv_ok by exact Hne. reflexivity.
  - rewrite length_app. cbn [length]. now rewrite Nat.add_1_r.
Qed.

Lemma app_cons_assoc {A : Type} (pre : list A) (p : A) (rest : list A) :
  pre ++ p :: rest = (pre ++ [p]) ++ rest.
Proof. now rewrite <- app_assoc. Qed.

(** With at least two points and the lengths of the path itself, the walk
    raises nothing. *)
Lemma polyline_walk_total tl : forall pre s,
  (2 <= length (pre ++ tl))%nat ->
  exists r, polyline_walk (pre ++ tl) (length pre) (segment_lengths tl) s = Ok r.
Proof.
  induction tl as [| p tl IH]; intros pre s Hlen.
  - cbn [segment_lengths polyline_walk]. rewrite polyline_end_ok by exact Hlen. eauto.
  - destruct tl as [| q post].
    + cbn [segment_lengths polyline_walk]. rewrite polyline_end_ok by exact Hlen. eauto.
    + rewrite segment_lengths_cons2, polyline_walk_step.
      destruct (Rle_dec s _) as [Hle | Hgt].
      * destruct (Req_dec_T _ 0); eauto.
      * rewrite app_cons_assoc. apply IH. now rewrite <- app_cons_assoc.
Qed.


(** Within the sum of the lengths the walk stops on a segment: on a segment
    of positive length at a convex combination of its end points, with the
    unit tangent; on a segment of length zero at its start, with [(1, 0)]. *)
Lemma polyline_walk_on_path tl : forall pre s,
  (2 <= length tl)%nat -> 0 <= s <= pysum (segment_lengths tl) ->
  exists i p1 p2 x y ux uy,
    nth_error (pre ++ tl) i = Some p1 /\ nth_error (pre ++ tl) (i + 1) = Some p2 /\
    polyline_walk (pre ++ tl) (length pre) (segment_lengths tl) s = Ok (x, y, ux, uy) /\
    ((hypot (fst p2 - fst p1) (snd p2 - snd p1) <> 0 /\
      on_segment p1 p2 x y /\ ux * ux + uy * uy = 1) \/
     (hypot (fst p2 - fst p1) (snd p2 - snd p1) = 0 /\
      x = fst p1 /\ y = snd p1 /\ ux = 1 /\ uy = 0)).
Proof.
  induction tl as [| p tl IH]; intros pre s Hlen Hs; [cbn in Hlen; lia |].
  destruct tl as [| q post]; [cbn in Hlen; lia |].
  rewrite segment_lengths_cons2 in Hs |- *. rewrite pysum_cons in Hs.
  rewrite polyline_walk_step.
  set (L := hypot (fst q - fst p) (snd q - snd p)) in *.
  assert (HL : 0 <= L) by apply hypot_nonneg.
  assert (Hp : nth_error (pre ++ p :: q :: post) (length pre) = Some p).
  { rewrite nth_error_app2 by lia. now rewrite Nat.sub_diag. }
  assert (Hq : nth_error (pre ++ p :: q :: post) (length pre + 1) = Some q).
  { rewrite nth_error_app2 by lia.
    replace (length pre + 1 - length pre)%nat with 1%nat by lia. reflexivity. }
  destruct (Rle_dec s L) as [Hle | Hgt].
  - destruct (Req_dec_T L 0) as [E | Hne].
    + exists (length pre), p, q, (fst p), (snd p), 1, 0.
      repeat split; try assumption. right. repeat split; assumption.
    + exists (length pre), p, q. do 4 eexists.
      split; [exact Hp |]. split; [exact Hq |]. split; [reflexivity |].
      left. split; [exact Hne |]. split.
      * exists (s / L). split; [| split; reflexivity].
        split.
        -- apply Rle_mult_inv_pos; lra.
        -- apply Rmult_le_reg_r with L; [lra |].
           replace (s / L * L) with s by (field; lra). lra.
      * apply unit_tangent. exact Hne.
  - assert (Hpost : (2 <= length (q :: post))%nat).
    { destruct post as [| q' post]; [| cbn; lia].
      cbn [segment_lengths] in Hs. rewrite pysum_nil in Hs. lra. }
    rewrite app_cons_assoc. apply IH; [exact Hpost | lra].
Qed.

Lemma position_total pts s :
  (2 <= length pts)%nat ->
  exists r, position_dir_on_polyline pts (segment_lengths pts) s = Ok r.
Proof.
  intros Hlen. exact (polyline_walk_total pts [] s Hlen).
Qed.

(** For every path of at least two points whose segments are not all of
    length zero, and every [s] from 0 to the total length, the position
    lies on a segment and the tangent is a unit vector, or [(1, 0)] on a
    segment of length zero. *)
Lemma position_on_path pts s :
  (2 <= length pts)%nat -> 0 <= s <= pysum (segment_lengths pts) ->
  exists i p1 p2 x y ux uy,
    nth_error pts i = Some p1 /\ nth_error pts (i + 1) = Some p2 /\
    position_dir_on_polyline pts (segment_lengths pts) s = Ok (x, y, ux, uy) /\
    ((hypot (fst p2 - fst p1) (snd p2 - snd p1) <> 0 /\
      on_segment p1 p2 x y /\ ux * ux + uy * uy = 1) \/
     (hypot (fst p2 - fst p1) (snd p2 - snd p1) = 0 /\
      x = fst p1 /\ y = snd p1 /\ ux = 1 /\ uy = 0)).
Proof.
  intros Hlen Hs. exact (polyline_walk_on_path pts [] s Hlen Hs).
Qed.


(** C7, at the failing input.  On the path [(0,0), (0,0)] the segment
    lengths are [[0]], the total length is 1 by the [or 1.0] fallback, and
    [s = 1/2] lies in [[0, 1)]; the walk leaves the loop and the end
    fallback returns the tangent [(0, 0)], neither a unit vector nor
    [(1, 0)]. *)
Theorem degenerate_path_zero_tangent :
  polyline_lengths [(0, 0); (0, 0)] = Ok [0] /\
  or_one (pysum [0]) = 1 /\
  0 <= 1 / 2 < 1 /\
  position_dir_on_polyline [(0, 0); (0, 0)] [0] (1 / 2) = Ok (0, 0, 0, 0).
Proof.
  assert (Hh : hypot (0 - 0) (0 - 0) = 0).
  { replace (0 - 0) with 0 by lra. apply hypot_0_0. }
  split; [| split; [| split]].
  - rewrite polyline_lengths_ok. cbn [segment_lengths fst snd]. now rewrite Hh.
  - rewrite pysum_cons, pysum_nil. replace (0 + 0) with 0 by lra. apply or_one_zero.
  - lra.
  - unfold position_dir_on_polyline. cbn [polyline_walk].
    destruct (Rle_dec (1 / 2) 0) as [Hle | _]; [exfalso; lra |].
    rewrite polyline_end_ok by (cbn; lia).
    unfold last_point, last_but_one. cbn [length Nat.sub nth fst snd].
    rewrite Hh, or_one_zero. repeat f_equal; lra.
Qed.





End Polyline.

(** ** Layout of the component symbols *)

Section Layout.

Lemma range_length n : length (range n) = Z.to_nat n.
Proof. unfold range. now rewrite length_map, length_seq. Qed.


Lemma IZR_pred_nonzero n : (2 <= n)%Z -> IZR (n - 1) <> 0.
Proof.
  intros Hn. apply not_0_IZR. lia.
Qed.

(** The layout raises nothing and returns one centre per component. *)
Lemma centers_total totalL n a b :
  exists cs, component_centers_along_path totalL n a b = Ok cs /\
             length cs = Z.to_nat n.
Proof.
  unfold component_centers_along_path.
  destruct (Z.leb_spec n 0) as [Hle | Hgt].
  - exists []. split; [reflexivity |]. cbn. lia.
  - destruct (Z.eqb_spec n 1) as [-> | Hne].
    + eexists. split; reflexivity.
    + rewrite rdiv_ok by (apply IZR_pred_nonzero; lia). cbn [bind].
      eexists. split; [reflexivity |]. now rewrite length_map, range_length.
Qed.




End Layout.

(** ** Electron markers *)

Section Electrons.

Import ElectronSystem.


Lemma init_system pts n random :
  init pts n random =
    Ok (make pts (segment_lengths pts) (or_one (pysum (segment_lengths pts)))
          (map (fun i => Electron.make (random i * or_one (pysum (segment_lengths pts))) (0, 0))
               (seq 0 (Z.to_nat n)))).
Proof.
  unfold init. rewrite polyline_lengths_ok. reflexivity.
Qed.

Lemma or_one_total_length pts :
  or_one (pysum (segment_lengths pts)) = total_length_spec pts.
Proof.
  unfold total_length_spec, or_one. now rewrite pysum_fold_right.
Qed.

Lemma total_length_pos pts : 0 < total_length_spec pts.
Proof.
  rewrite <- or_one_total_length. apply or_one_pos, pysum_nonneg, segment_lengths_nonneg.
Qed.






(** C9. The total length is the sum of the segment lengths, or 1 when that
    sum is exactly 0, at both places where it is computed: in the
    construction of the electron system and in the layout of [Canvas.run],
    which agree. *)
Theorem total_length_everywhere :
  (forall pts n random,
     exists sys, init pts n random = Ok sys /\
       seglens sys = segment_lengths pts /\
       totalL sys = total_length_spec pts) /\
  (forall template order random,
     exists sc, Canvas.run_setup template order random = Ok sc /\
       Canvas.seglens sc = segment_lengths (RectLoopTemplate.mid_path template) /\
       Canvas.totalL sc = total_length_spec (RectLoopTemplate.mid_path template) /\
       totalL (Canvas.electrons sc) = Canvas.totalL sc).
Proof.
  split.
  - intros pts n random. eexists. split; [apply init_system |].
    split; [reflexivity | apply or_one_total_length].
  - intros template order random. unfold Canvas.run_setup.
    set (mid := RectLoopTemplate.mid_path template).
    rewrite init_system, polyline_lengths_ok. cbn [bind].
    destruct (centers_total (or_one (pysum (segment_lengths mid)))
                (Z.of_nat (length order)) start_frac_default end_frac_default)
      as (cs & Hcs & _).
    rewrite Hcs. cbn [bind].
    destruct (mapM_total (Canvas.place mid (segment_lengths mid)) (combine order cs))
      as (drawn & Hdrawn).
    { apply Forall_forall. intros [tok s0] _. unfold Canvas.place. cbn [fst snd].
      destruct (position_total mid s0) as (r & Hr); [cbn; lia |].
      rewrite Hr. cbn [bind]. eauto. }
    rewrite Hdrawn. cbn [bind].
    eexists. split; [reflexivity |].
    cbn [Canvas.seglens Canvas.totalL Canvas.electrons totalL].
    split; [reflexivity |]. split; [apply or_one_total_length | reflexivity].
Qed.

(** The same through [Canvas.run]: a 60 x 60 template with the default
    margin and wire thickness has its mid path collapsed onto the origin;
    the battery symbol is then placed at [s = 0.5] with the tangent
    [(0, 0)]. *)
Lemma collapsed_mid_path :
  RectLoopTemplate.mid_path (RectLoopTemplate.init 60 60 24 12) =
    [(0, 0); (0, 0); (0, 0); (0, 0); (0, 0)].
Proof.
  unfold RectLoopTemplate.mid_path, RectLoopTemplate._rect_path. cbn.
  repeat f_equal; lra.
Qed.

Lemma collapsed_template_zero_tangent random :
  exists sc,
    Canvas.run_setup (RectLoopTemplate.init 60 60 24 12) ["B"%string] random = Ok sc /\
    Canvas.totalL sc = 1 /\
    Canvas.drawn sc = [("B"%string, (0, 0, 0, 0))].
Proof.
  assert (Hh : hypot (0 - 0) (0 - 0) = 0).
  { replace (0 - 0) with 0 by lra. apply hypot_0_0. }
  assert (Hseg : segment_lengths [(0, 0); (0, 0); (0, 0); (0, 0); (0, 0)] = [0; 0; 0; 0]).
  { cbn [segment_lengths fst snd]. now rewrite Hh. }
  assert (Htot : or_one (pysum [0; 0; 0; 0]) = 1).
  { rewrite !pysum_cons, pysum_nil. replace (0 + (0 + (0 + (0 + 0)))) with 0 by lra.
    apply or_one_zero. }
  unfold Canvas.run_setup. rewrite collapsed_mid_path.
  rewrite init_system, polyline_lengths_ok. cbn [bind]. rewrite !Hseg, !Htot.
  unfold component_centers_along_path. cbn [length Z.of_nat Z.leb Z.eqb Z.compare
    Pos.of_succ_nat Pos.eqb bind combine mapM].
  unfold Canvas.place. cbn [fst snd].
  unfold position_dir_on_polyline. cbn [polyline_walk].
  unfold start_frac_default, end_frac_default.
  set (s0 := (1 * 0.08 + 1 * 0.92) / 2).
  assert (Hs0 : s0 = 1 / 2) by (unfold s0; lra).
  repeat match goal with
         | |- context [Rle_dec ?a ?b] =>
             destruct (Rle_dec a b) as [Hle | _]; [exfalso; lra |]
         end.
  rewrite polyline_end_ok by (cbn; lia).
  unfold last_point, last_but_one. cbn [length Nat.sub nth fst snd].
  rewrite Hh, or_one_zero. cbn [bind].
  eexists. split; [reflexivity |]. cbn [Canvas.totalL Canvas.drawn].
  split; [reflexivity |]. repeat f_equal; lra.
Qed.

(** C3, as amended.  A point list with fewer than two points is accepted
    without an error: [polyline_lengths] returns the empty list and the
    electron system is built with no segment and total length 1.  The error
    comes later and is an [IndexError]: from the position query, and so
    from the first [update] of a system that has an electron. *)
Theorem short_path_is_accepted pts :
  (length pts < 2)%nat ->
  polyline_lengths pts = Ok [] /\
  (forall n random,
     exists sys, init pts n random = Ok sys /\
       seglens sys = [] /\ totalL sys = 1 /\
       (forall dt speed, (0 < n)%Z -> update sys dt speed = Raise IndexError)) /\
  (forall s, position_dir_on_polyline pts [] s = Raise IndexError).
Proof.
  intros Hlen.
  assert (Hseg : segment_lengths pts = []).
  { destruct pts as [| p [| q pts]]; [reflexivity | reflexivity | cbn in Hlen; lia]. }
  assert (Hone : or_one (pysum []) = 1) by (rewrite pysum_nil; apply or_one_zero).
  split; [| split].
  - now rewrite polyline_lengths_ok, Hseg.
  - intros n random. eexists. split; [apply init_system |].
    rewrite Hseg, Hone. cbn [seglens totalL].
    split; [reflexivity |]. split; [reflexivity |].
    intros dt speed Hn. unfold update. cbn [electrons].
    destruct (Z.to_nat n) as [| m] eqn:En; [lia |].
    cbn [seq map mapM]. unfold move at 1.
    cbn [ElectronSystem.totalL ElectronSystem.pts ElectronSystem.seglens].
    rewrite rmod_ok by lra. cbn [bind].
    unfold position_dir_on_polyline. cbn [polyline_walk].
    now rewrite polyline_end_short.
  - intros s. unfold position_dir_on_polyline. cbn [polyline_walk].
    now apply polyline_end_short.
Qed.

Lemma short_path_is_accepted_witness :
  polyline_lengths [(1, 2)] = Ok [] /\
  (exists sys, init [(1, 2)] 35 (fun _ => 1 / 2) = Ok sys /\
     totalL sys = 1 /\ update sys 1 1 = Raise IndexError) /\
  position_dir_on_polyline [(1, 2)] [] 0 = Raise IndexError.
Proof.
  destruct (short_path_is_accepted [(1, 2)]) as (Hlens & Hsys & Hpos); [cbn; lia |].
  split; [exact Hlens |]. split; [| exact (Hpos 0)].
  destruct (Hsys 35%Z (fun _ => 1 / 2)) as (sys & Hinit & _ & Htot & Hupd).
  exists sys. split; [exact Hinit |]. split; [exact Htot |].
  apply Hupd. lia.
Defined.

(** C3 as stated fails: the electron system is built from the empty point
    list, with total length 1, and no error is raised. *)
Lemma empty_path_is_accepted :
  (length (@nil Point) < 2)%nat /\
  exists sys, init [] 35 (fun _ => 0) = Ok sys /\ seglens sys = [] /\ totalL sys = 1.
Proof.
  split; [cbn; lia |].
  eexists. split; [apply init_system |]. cbn [seglens totalL segment_lengths].
  split; [reflexivity |].
  rewrite pysum_nil. apply or_one_zero.
Qed.

End Electrons.

(** * Further properties of the code *)

(** ** Polylines *)

Section PolylineFacts.

Lemma hypot_eq_0 x y : hypot x y = 0 <-> x = 0 /\ y = 0.
Proof.
  split.
  - intros H. pose proof (hypot_sqr x y) as Hs. rewrite H in Hs. split; nra.
  - intros [-> ->]. apply hypot_0_0.
Qed.

Lemma point_eq_iff (p q : Point) : p = q <-> fst q - fst p = 0 /\ snd q - snd p = 0.
Proof.
  destruct p as [px py], q as [qx qy]. cbn [fst snd]. split.
  - intros E. injection E as -> ->. lra.
  - intros [Hx Hy]. f_equal; lra.
Qed.

Lemma segment_lengths_nth (pts : list Point) : forall i p q,
  nth_error pts i = Some p -> nth_error pts (S i) = Some q ->
  nth_error (segment_lengths pts) i = Some (hypot (fst q - fst p) (snd q - snd p)).
Proof.
  induction pts as [| a pts IH]; intros i p q Hp Hq; [destruct i; discriminate |].
  destruct pts as [| b pts]; [destruct i as [| [| i]]; discriminate |].
  rewrite segment_lengths_cons2.
  destruct i as [| i].
  - cbn in Hp, Hq. injection Hp as <-. injection Hq as <-. reflexivity.
  - cbn [nth_error] in Hp, Hq |- *. now apply IH.
Qed.

Lemma segment_lengths_count (pts : list Point) :
  length (segment_lengths pts) = (length pts - 1)%nat.
Proof.
  induction pts as [| p pts IH]; [reflexivity |].
  destruct pts as [| q pts]; [reflexivity |].
  rewrite segment_lengths_cons2. cbn [length] in *. lia.
Qed.

(** X1. [polyline_lengths] raises nothing on any point list and returns one
    length per pair of consecutive points (none for fewer than two
    points): the distance between the two points, which is never negative
    and is 0 exactly when the two points coincide. *)
Theorem polyline_lengths_shape (pts : list Point) :
  exists l, polyline_lengths pts = Ok l /\
    length l = (length pts - 1)%nat /\
    Forall (fun L => 0 <= L) l /\
    (forall i p q, nth_error pts i = Some p -> nth_error pts (S i) = Some q ->
       exists L, nth_error l i = Some L /\
         L * L = (fst q - fst p) * (fst q - fst p) + (snd q - snd p) * (snd q - snd p) /\
         (L = 0 <-> p = q)).
Proof.
  exists (segment_lengths pts).
  split; [apply polyline_lengths_ok |].
  split; [apply segment_lengths_count |].
  split; [apply segment_lengths_nonneg |].
  intros i p q Hp Hq. eexists. split; [eapply segment_lengths_nth; eassumption |].
  split; [apply hypot_sqr |].
  rewrite hypot_eq_0. symmetry. apply point_eq_iff.
Qed.

Lemma last_point_app (pre : list Point) (p : Point) : last_point (pre ++ [p]) = p.
Proof.
  unfold last_point. rewrite length_app. cbn [length].
  replace (length pre + 1 - 1)%nat with (length pre) by lia.
  rewrite app_nth2 by lia. now rewrite Nat.sub_diag.
Qed.

Lemma pysum_firstn_nonneg (xs : list R) k :
  Forall (fun x => 0 <= x) xs -> 0 <= pysum (firstn k xs).
Proof.
  intros H. apply pysum_nonneg. revert k.
  induction H as [| x xs Hx _ IH]; intros [| k]; cbn [firstn]; constructor.
  - exact Hx.
  - apply IH.
Qed.

(** When the lengths up to the vertex [k] add up to 0, that vertex is the
    first point. *)
Lemma zero_prefix_same_point (tl : list Point) : forall k,
  (k < length tl)%nat -> pysum (firstn k (segment_lengths tl)) = 0 ->
  nth k tl (0, 0) = nth 0 tl (0, 0).
Proof.
  induction tl as [| p tl IH]; intros k Hk Hs; [cbn in Hk; lia |].
  destruct k as [| k]; [reflexivity |].
  destruct tl as [| q post]; [cbn in Hk; lia |].
  rewrite segment_lengths_cons2 in Hs. cbn [firstn] in Hs. rewrite pysum_cons in Hs.
  pose proof (hypot_nonneg (fst q - fst p) (snd q - snd p)) as HL.
  pose proof (pysum_firstn_nonneg _ k (segment_lengths_nonneg (q :: post))) as Hrest.
  cbn [nth]. change (nth k (q :: post) (0, 0) = p).
  rewrite IH by (cbn [length] in Hk |- *; lia || lra). cbn [nth].
  symmetry. apply point_eq_iff. apply hypot_eq_0. lra.
Qed.

Lemma polyline_walk_at_vertex (tl : list Point) : forall pre k,
  (2 <= length (pre ++ tl))%nat -> (k < length tl)%nat ->
  exists ux uy,
    polyline_walk (pre ++ tl) (length pre) (segment_lengths tl)
      (pysum (firstn k (segment_lengths tl))) =
    Ok (fst (nth k tl (0, 0)), snd (nth k tl (0, 0)), ux, uy).
Proof.
  induction tl as [| p tl IH]; intros pre k Hlen Hk; [cbn in Hk; lia |].
  destruct tl as [| q post].
  - assert (k = 0)%nat as -> by (cbn in Hk; lia).
    cbn [segment_lengths polyline_walk nth].
    rewrite polyline_end_ok by exact Hlen. cbv zeta.
    rewrite last_point_app. eauto.
  - rewrite segment_lengths_cons2, polyline_walk_step.
    set (L := hypot (fst q - fst p) (snd q - snd p)).
    assert (HL : 0 <= L) by apply hypot_nonneg.
    destruct k as [| k].
    + cbn [firstn nth]. rewrite pysum_nil.
      destruct (Rle_dec 0 L) as [_ | N]; [| contradiction].
      destruct (Req_dec_T L 0) as [E | Hne]; [eauto |].
      replace (fst p + 0 / L * (fst q - fst p)) with (fst p) by (field; exact Hne).
      replace (snd p + 0 / L * (snd q - snd p)) with (snd p) by (field; exact Hne).
      eauto.
    + cbn [firstn nth]. rewrite pysum_cons.
      set (s' := pysum (firstn k (segment_lengths (q :: post)))).
      assert (Hs' : 0 <= s')
        by apply (pysum_firstn_nonneg _ k (segment_lengths_nonneg (q :: post))).
      assert (Hk' : (k < length (q :: post))%nat) by (cbn [length] in Hk |- *; lia).
      destruct (Rle_dec (L + s') L) as [Hle | Hgt].
      * assert (E0 : s' = 0) by lra.
        pose proof (zero_prefix_same_point (q :: post) k Hk' E0) as Hsame.
        cbn [nth] in Hsame. rewrite Hsame, E0.
        destruct (Req_dec_T L 0) as [E | Hne].
        -- assert (Hpq : p = q) by (apply point_eq_iff, hypot_eq_0; exact E).
           rewrite Hpq. eauto.
        -- replace (L + 0) with L by lra.
           replace (fst p + L / L * (fst q - fst p)) with (fst q) by (field; exact Hne).
           replace (snd p + L / L * (snd q - snd p)) with (snd q) by (field; exact Hne).
           eauto.
      * replace (L + s' - L) with s' by lra.
        rewrite app_cons_assoc. apply IH; [now rewrite <- app_cons_assoc | exact Hk'].
Qed.

(** X2. On a path of at least two points, the position at the arc length
    of a vertex (the sum of the lengths of the segments before it) is that
    vertex: the first point at [s = 0], the last point at the full length,
    so that the position is the same on both sides of a segment boundary. *)
Theorem position_at_vertex (pts : list Point) (seglens : list R) (k : nat) :
  (2 <= length pts)%nat -> polyline_lengths pts = Ok seglens ->
  (k < length pts)%nat ->
  exists ux uy,
    position_dir_on_polyline pts seglens (pysum (firstn k seglens)) =
    Ok (fst (nth k pts (0, 0)), snd (nth k pts (0, 0)), ux, uy).
Proof.
  intros Hlen Hseg Hk. rewrite polyline_lengths_ok in Hseg. injection Hseg as <-.
  exact (polyline_walk_at_vertex pts [] k Hlen Hk).
Qed.

Lemma position_at_vertex_witness :
  exists ux uy,
    position_dir_on_polyline [(0, 0); (3, 4); (3, 4); (6, 8)]
      (segment_lengths [(0, 0); (3, 4); (3, 4); (6, 8)])
      (pysum (firstn 2 (segment_lengths [(0, 0); (3, 4); (3, 4); (6, 8)]))) =
    Ok (3, 4, ux, uy).
Proof.
  apply (position_at_vertex [(0, 0); (3, 4); (3, 4); (6, 8)] _ 2).
  - cbn. lia.
  - apply polyline_lengths_ok.
  - cbn. lia.
Defined.


End PolylineFacts.

(** ** Physics *)

Section PhysicsFacts.

Import SeriesRCPhysics.

Lemma init_value V rs cs :
  Forall (fun c => Capacitor.C c <> 0) cs ->
  init V rs cs =
    Ok (make V rs cs (Req_of rs) (Ceq_of cs)
          (match Ceq_of cs with
           | Some c => Some (fmul (Req_of rs) (Fin c))
           | None => None
           end)).
Proof.
  intros Hcs. unfold init. fold (Req_of rs).
  destruct cs as [| c0 cs]; [reflexivity |].
  rewrite (mapM_ok_map _ (fun c => 1 / Capacitor.C c))
    by (eapply Forall_impl; [| exact Hcs]; intros c Hc; now apply rdiv_ok).
  cbn [bind]. unfold Ceq_of. cbv zeta.
  destruct (Rlt_dec 0 _) as [Hpos | Hneg]; cbn [bind].
  - rewrite rdiv_ok by lra. reflexivity.
  - reflexivity.
Qed.






(** X7. When the reciprocals of the (non-zero) capacitances do not add up
    to a positive number, [Ceq] is 0 and the current is 0 at every time,
    whatever the voltage and the resistors. *)
Theorem degenerate_capacitance_no_current V rs cs :
  cs <> [] -> Forall (fun c => Capacitor.C c <> 0) cs ->
  fold_right Rplus 0 (map (fun c => 1 / Capacitor.C c) cs) <= 0 ->
  exists p, init V rs cs = Ok p /\ Ceq p = Some 0 /\
            forall t, current p t = Ok (Fin 0).
Proof.
  intros Hne Hnz Hsum. rewrite <- pysum_fold_right in Hsum.
  assert (HC : Ceq_of cs = Some 0).
  { unfold Ceq_of. destruct cs as [| c0 cs]; [contradiction |]. cbv zeta.
    destruct (Rlt_dec 0 _); [lra | reflexivity]. }
  eexists. split; [apply init_value; exact Hnz |]. cbn [Ceq]. rewrite HC.
  split; [reflexivity |]. intros t.
  destruct rs as [| r0 rs].
  - apply current_open. left. reflexivity.
  - set (r := pysum (map Resistor.R (r0 :: rs))).
    destruct (Rle_dec r 0) as [Hle | Hgt].
    + apply current_open. right. cbn [Req Req_of]. fold r. now apply fle0_Fin_true.
    + apply (current_degenerate _ t r 0 (r * 0)); cbn [Req Ceq tau Req_of fmul];
        try reflexivity; lra.
Qed.

Lemma degenerate_capacitance_no_current_witness :
  exists p, init 9 example_resistors [Capacitor.make (- 1) "C1"%string] = Ok p /\
            Ceq p = Some 0 /\ current p 1 = Ok (Fin 0).
Proof.
  destruct (degenerate_capacitance_no_current 9 example_resistors
              [Capacitor.make (- 1) "C1"%string]) as (p & Hp & HC & Hcur).
  - discriminate.
  - repeat constructor. cbn. lra.
  - cbn. lra.
  - exists p. split; [exact Hp |]. split; [exact HC | apply Hcur].
Defined.







End PhysicsFacts.

(** ** Template geometry *)

Section TemplateFacts.

Import RectLoopTemplate.

Lemma hypot_0_l y : hypot 0 y = Rabs y.
Proof.
  unfold hypot. replace (0 * 0 + y * y) with (Rsqr y) by (unfold Rsqr; lra).
  apply sqrt_Rsqr_abs.
Qed.

Lemma hypot_0_r x : hypot x 0 = Rabs x.
Proof.
  unfold hypot. replace (x * x + 0 * 0) with (Rsqr x) by (unfold Rsqr; lra).
  apply sqrt_Rsqr_abs.
Qed.

Lemma Rabs_double x : Rabs (2 * x) = 2 * Rabs x.
Proof. rewrite Rabs_mult, (Rabs_pos_eq 2) by lra. reflexivity. Qed.

Lemma Rabs_neg_double x : Rabs (- (2 * x)) = 2 * Rabs x.
Proof. rewrite Rabs_Ropp. apply Rabs_double. Qed.

Lemma rect_path_length (self : t) (inset : R) :
  pysum (segment_lengths (_rect_path self inset)) =
    4 * Rabs (W self / 2 - inset) + 4 * Rabs (H self / 2 - inset).
Proof.
  unfold _rect_path.
  set (x := W self / 2 - inset). set (y := H self / 2 - inset).
  cbn [segment_lengths fst snd]. rewrite !pysum_cons, pysum_nil.
  replace (- x - - x) with 0 by lra. replace (x - x) with 0 by lra.
  replace (y - y) with 0 by lra. replace (- y - - y) with 0 by lra.
  replace (y - - y) with (2 * y) by lra. replace (x - - x) with (2 * x) by lra.
  replace (- y - y) with (- (2 * y)) by lra. replace (- x - x) with (- (2 * x)) by lra.
  rewrite !hypot_0_l, !hypot_0_r, !Rabs_double, !Rabs_neg_double. lra.
Qed.

(** X8. Every rectangle path of a template has five points, ends where it
    starts, and its four segment lengths add up to the perimeter of the
    rectangle, [4 * |W/2 - inset| + 4 * |H/2 - inset|]. *)
Theorem rect_path_perimeter (self : t) (inset : R) :
  let pts := _rect_path self inset in
  length pts = 5%nat /\
  nth_error pts 4 = nth_error pts 0 /\
  exists l, polyline_lengths pts = Ok l /\
    length l = 4%nat /\
    pysum l = 4 * Rabs (W self / 2 - inset) + 4 * Rabs (H self / 2 - inset).
Proof.
  cbv zeta. split; [reflexivity |]. split; [reflexivity |].
  eexists. split; [apply polyline_lengths_ok |]. split; [reflexivity |].
  apply rect_path_length.
Qed.

(** X9. In a constructed template the mid path, which the electrons follow,
    runs halfway between the outer and the inner outline of the wire: each
    of its points is the midpoint of the corresponding two. *)
Theorem mid_path_is_halfway (width height margin wire_thickness : R) :
  let self := init width height margin wire_thickness in
  mid_path self =
    map (fun oi : Point * Point =>
           ((fst (fst oi) + fst (snd oi)) / 2, (snd (fst oi) + snd (snd oi)) / 2))
        (combine (outer_path self) (inner_path self)).
Proof.
  cbv zeta. unfold mid_path, outer_path, inner_path, _rect_path, init.
  cbn [W H mid_inset outer_inset inner_inset combine map fst snd].
  repeat match goal with
         | |- _ :: _ = _ :: _ => f_equal
         | |- (_, _) = (_, _) => f_equal
         end; lra.
Qed.

End TemplateFacts.

(** ** Electron markers *)

Section ElectronFacts.

Import ElectronSystem.

(** X10. The electron system is built for every point list; it has [n]
    electrons (none for [n <= 0]), and with the random draws in [[0, 1)]
    every electron starts at an arc length in [[0, totalL)], its turtle at
    the origin. *)
Theorem init_places_electrons (pts : list Point) (n : Z) (random : nat -> R) :
  (forall i, 0 <= random i < 1) ->
  exists sys, init pts n random = Ok sys /\
    ElectronSystem.pts sys = pts /\
    length (electrons sys) = Z.to_nat n /\
    Forall (fun e => 0 <= Electron.s e < totalL sys /\ Electron.t e = (0, 0))
           (electrons sys).
Proof.
  intros Hrand. eexists. split; [apply init_system |].
  cbn [ElectronSystem.pts electrons totalL].
  split; [reflexivity |]. split; [now rewrite length_map, length_seq |].
  apply Forall_forall. intros e He. apply in_map_iff in He.
  destruct He as (i & <- & _). cbn [Electron.s Electron.t].
  split; [| reflexivity].
  rewrite or_one_total_length. pose proof (total_length_pos pts) as Hpos.
  specialize (Hrand i). nra.
Qed.

Lemma init_places_electrons_witness :
  exists sys, init [(0, 0); (3, 4)] 35 (fun _ => 1 / 2) = Ok sys /\
    length (electrons sys) = 35%nat /\
    Forall (fun e => 0 <= Electron.s e < totalL sys /\ Electron.t e = (0, 0))
           (electrons sys).
Proof.
  destruct (init_places_electrons [(0, 0); (3, 4)] 35 (fun _ => 1 / 2))
    as (sys & Hsys & _ & Hlen & Hall).
  - intros _. lra.
  - exists sys. split; [exact Hsys |]. split; [exact Hlen | exact Hall].
Defined.















End ElectronFacts.

(** ** Layout and placement *)

Section LayoutFacts.

Lemma range_In n i : In i (range n) -> (0 <= i < n)%Z.
Proof.
  unfold range. intros H. apply in_map_iff in H. destruct H as (j & <- & Hj).
  apply in_seq in Hj. lia.
Qed.

Lemma centers_span totalL n a b cs :
  0 <= totalL -> a <= b ->
  component_centers_along_path totalL n a b = Ok cs ->
  Forall (fun c => totalL * a <= c <= totalL * b) cs.
Proof.
  intros Htot Hab Hcs. unfold component_centers_along_path in Hcs.
  assert (HAB : totalL * a <= totalL * b) by nra.
  destruct (Z.leb_spec n 0) as [Hle | Hgt]; [injection Hcs as <-; constructor |].
  destruct (Z.eqb_spec n 1) as [E | Hne].
  - injection Hcs as <-. constructor; [lra | constructor].
  - assert (Hden : 0 < IZR (n - 1)) by (apply IZR_lt; lia).
    rewrite rdiv_ok in Hcs by lra. cbn [bind] in Hcs. injection Hcs as <-.
    apply Forall_forall. intros c Hc. apply in_map_iff in Hc.
    destruct Hc as (i & <- & Hi). apply range_In in Hi.
    set (step := (totalL * b - totalL * a) / IZR (n - 1)).
    assert (Hstep : 0 <= step) by (apply Rle_mult_inv_pos; lra).
    assert (Hfull : IZR (n - 1) * step = totalL * b - totalL * a)
      by (unfold step; field; lra).
    assert (Hi0 : 0 <= IZR i) by (apply IZR_le; lia).
    assert (Hi1 : IZR i <= IZR (n - 1)) by (apply IZR_le; lia).
    split; nra.
Qed.



Lemma map_fst_combine_same {A B : Type} (xs : list A) (ys : list B) :
  length xs = length ys -> map fst (combine xs ys) = xs.
Proof.
  revert ys. induction xs as [| x xs IH]; intros [| y ys] Hlen;
    try discriminate; [reflexivity |].
  cbn [combine map fst]. f_equal. apply IH. now injection Hlen.
Qed.

Lemma Forall2_Forall_r {A B : Type} (P : A -> B -> Prop) (Q : B -> Prop)
    (xs : list A) (ys : list B) :
  Forall2 P xs ys -> (forall x y, In x xs -> P x y -> Q y) -> Forall Q ys.
Proof.
  induction 1 as [| x y xs ys Hxy _ IH]; intros HQ; constructor.
  - apply (HQ x y); [now left | exact Hxy].
  - apply IH. intros x' y' Hin. apply HQ. now right.
Qed.

Lemma in_combine_snd {A B : Type} (xs : list A) (ys : list B) (p : A * B) :
  In p (combine xs ys) -> In (snd p) ys.
Proof.
  destruct p as [x y]. intros H. eapply in_combine_r. exact H.
Qed.

(** The position on a path of non-zero length, for an arc length within
    it: on a segment, with a direction of length 1. *)
Lemma position_placed_on pts s r :
  (2 <= length pts)%nat -> 0 <= s <= pysum (segment_lengths pts) ->
  position_dir_on_polyline pts (segment_lengths pts) s = Ok r ->
  placed_on pts r.
Proof.
  intros Hlen Hs Hr.
  destruct (position_on_path pts s Hlen Hs)
    as (i & p1 & p2 & x & y & ux & uy & H1 & H2 & Hpos & Hcase).
  rewrite Hpos in Hr. injection Hr as <-. unfold placed_on.
  destruct Hcase as [(_ & Hon & Hunit) | (_ & -> & -> & -> & ->)].
  - split; [exact Hunit |]. exists i, p1, p2. repeat split; assumption.
  - split; [lra |]. exists i, p1, p2. split; [exact H1 |]. split; [exact H2 |].
    exists 0. split; [lra |]. split; lra.
Qed.

Lemma run_setup_drawn (template : RectLoopTemplate.t) (order : list string)
    (random : nat -> R) :
  let mid := RectLoopTemplate.mid_path template in
  let total := or_one (pysum (segment_lengths mid)) in
  exists sc cs,
    Canvas.run_setup template order random = Ok sc /\
    Canvas.centers_s sc = cs /\
    component_centers_along_path total (Z.of_nat (length order))
      start_frac_default end_frac_default = Ok cs /\
    length cs = length order /\
    Forall2 (fun ts d => fst d = fst ts /\
               position_dir_on_polyline mid (segment_lengths mid) (snd ts) = Ok (snd d))
            (combine order cs) (Canvas.drawn sc).
Proof.
  intros mid total. unfold Canvas.run_setup. fold mid.
  rewrite init_system, polyline_lengths_ok. cbn [bind]. fold total.
  destruct (centers_total total (Z.of_nat (length order))
              start_frac_default end_frac_default) as (cs & Hcs & Hlen).
  rewrite Nat2Z.id in Hlen.
  rewrite Hcs. cbn [bind].
  destruct (mapM_Forall2_total (Canvas.place mid (segment_lengths mid))
              (fun ts d => fst d = fst ts /\
                 position_dir_on_polyline mid (segment_lengths mid) (snd ts) = Ok (snd d))
              (combine order cs)) as (drawn & Hdrawn & HP).
  { intros [tok s0]. unfold Canvas.place. cbn [fst snd].
    destruct (position_total mid s0) as (r & Hr); [cbn; lia |].
    rewrite Hr. cbn [bind]. eexists. split; [reflexivity |]. split; reflexivity. }
  rewrite Hdrawn. cbn [bind]. eexists. exists cs. split; [reflexivity |].
  cbn [Canvas.drawn Canvas.centers_s]. repeat split; assumption.
Qed.

Lemma drawn_tokens {B C : Type} (P : string * B -> string * C -> Prop)
    (order : list string) (cs : list B) (drawn : list (string * C)) :
  (forall ts d, P ts d -> fst d = fst ts) ->
  length cs = length order ->
  Forall2 P (combine order cs) drawn -> map fst drawn = order.
Proof.
  intros HP Hlen H.
  transitivity (map fst (combine order cs));
    [| apply map_fst_combine_same; now symmetry].
  clear Hlen. induction H as [| ts d tss ds Hd _ IH]; [reflexivity |].
  cbn [map]. now rewrite (HP _ _ Hd), IH.
Qed.

(** X15. The set-up of [Canvas.run] raises nothing and gives every token
    of the order exactly one placement, in the order given; unless the mid
    rectangle is collapsed to a point, each placement lies on a segment of
    the mid path and its direction has length 1. *)
Theorem run_setup_places_tokens (template : RectLoopTemplate.t)
    (order : list string) (random : nat -> R) :
  let mid := RectLoopTemplate.mid_path template in
  exists sc, Canvas.run_setup template order random = Ok sc /\
    map fst (Canvas.drawn sc) = order /\
    length (Canvas.centers_s sc) = length order /\
    (RectLoopTemplate.W template / 2 <> RectLoopTemplate.mid_inset template \/
     RectLoopTemplate.H template / 2 <> RectLoopTemplate.mid_inset template ->
     Forall (fun d => placed_on mid (snd d)) (Canvas.drawn sc)).
Proof.
  intros mid.
  destruct (run_setup_drawn template order random)
    as (sc & cs & Hsc & Hcent & Hcs & Hlen & HP). fold mid in Hcs, HP.
  set (total := or_one (pysum (segment_lengths mid))) in *.
  assert (Htotal : 0 < total) by apply or_one_pos, pysum_nonneg, segment_lengths_nonneg.
  exists sc. split; [exact Hsc |].
  split; [| split; [now rewrite Hcent |]].
  - eapply drawn_tokens; [| exact Hlen | exact HP]. intros ts d [H _]. exact H.
  - intros Hopen.
    assert (Hraw : pysum (segment_lengths mid) <> 0).
    { unfold mid, RectLoopTemplate.mid_path. rewrite rect_path_length.
      pose proof (Rabs_pos (RectLoopTemplate.W template / 2 - RectLoopTemplate.mid_inset template)).
      pose proof (Rabs_pos (RectLoopTemplate.H template / 2 - RectLoopTemplate.mid_inset template)).
      destruct Hopen as [Hw | Hh].
      - assert (0 < Rabs (RectLoopTemplate.W template / 2 - RectLoopTemplate.mid_inset template))
          by (apply Rabs_pos_lt; lra). apply Rgt_not_eq. lra.
      - assert (0 < Rabs (RectLoopTemplate.H template / 2 - RectLoopTemplate.mid_inset template))
          by (apply Rabs_pos_lt; lra). apply Rgt_not_eq. lra. }
    assert (Etotal : total = pysum (segment_lengths mid)).
    { unfold total, or_one. destruct (Req_dec_T _ 0); [contradiction | reflexivity]. }
    assert (Hfrac : start_frac_default <= end_frac_default)
      by (unfold start_frac_default, end_frac_default; lra).
    pose proof (centers_span total _ _ _ cs (Rlt_le _ _ Htotal) Hfrac Hcs) as Hspan.
    rewrite Forall_forall in Hspan.
    apply (Forall2_Forall_r _ _ _ _ HP). intros ts d Hin [_ Hpos].
    apply (position_placed_on mid (snd ts)); [cbn; lia | | exact Hpos].
    apply in_combine_snd in Hin.
    specialize (Hspan _ Hin). unfold start_frac_default, end_frac_default in Hspan.
    rewrite <- Etotal. nra.
Qed.

Lemma run_setup_places_tokens_witness :
  exists sc,
    Canvas.run_setup (RectLoopTemplate.init 240 240 24 12)
      ["B"%string; "R1"%string; "C1"%string] (fun _ => 1 / 2) = Ok sc /\
    map fst (Canvas.drawn sc) = ["B"%string; "R1"%string; "C1"%string] /\
    Forall (fun d => placed_on (RectLoopTemplate.mid_path (RectLoopTemplate.init 240 240 24 12))
                       (snd d))
           (Canvas.drawn sc).
Proof.
  destruct (run_setup_places_tokens (RectLoopTemplate.init 240 240 24 12)
              ["B"%string; "R1"%string; "C1"%string] (fun _ => 1 / 2))
    as (sc & Hsc & Hord & _ & Hon).
  exists sc. split; [exact Hsc |]. split; [exact Hord |].
  apply Hon. left. cbn. lra.
Defined.

End LayoutFacts.

(** ** Markers on the wire *)

Section MarkerFacts.

Import ElectronSystem.



End MarkerFacts.

(** ** Prompts *)

Section PromptFacts.

Lemma str_in_In tok xs : str_in tok xs = true <-> In tok xs.
Proof.
  unfold str_in. rewrite existsb_exists. split.
  - intros (x & Hin & Heq). apply String.eqb_eq in Heq. now subst.
  - intros Hin. exists tok. split; [exact Hin | apply String.eqb_refl].
Qed.

Lemma str_in_not_In tok xs : str_in tok xs = false <-> ~ In tok xs.
Proof.
  rewrite <- str_in_In. destruct (str_in tok xs); split; intros H;
    congruence || (exfalso; now apply H).
Qed.

(** The tokens that [prompt_order] offers: ["B"] and the names. *)
Lemma prompt_order_blank rs cs :
  prompt_order rs cs [] = "B"%string :: (map Resistor.name rs ++ map Capacitor.name cs).
Proof.
  unfold prompt_order. destruct rs, cs; cbn [map app]; now rewrite ?app_nil_r.
Qed.

Lemma prompt_tokens rs cs :
  (let tokens := [] in
   let tokens := match rs with [] => tokens | _ :: _ => tokens ++ map Resistor.name rs end in
   match cs with [] => tokens | _ :: _ => tokens ++ map Capacitor.name cs end)
  = map Resistor.name rs ++ map Capacitor.name cs.
Proof.
  destruct rs, cs; cbn [map app]; now rewrite ?app_nil_r.
Qed.

(** The loop that appends the missing tokens: the order is kept as a
    prefix, what is appended is new, without repetition, and taken from
    the tokens; in the end every token is in the order. *)
Lemma append_missing_spec toks : forall order used,
  (forall x, In x used <-> In x order) ->
  exists missing,
    fst (fold_left append_missing toks (order, used)) = order ++ missing /\
    (forall x, In x missing -> In x toks /\ ~ In x order) /\
    NoDup missing /\
    (forall x, In x toks -> In x (order ++ missing)).
Proof.
  induction toks as [| tok toks IH]; intros order used Hused.
  - exists []. cbn. rewrite app_nil_r. repeat split; try easy. constructor.
  - cbn [fold_left append_missing].
    destruct (str_in tok used) eqn:Hin.
    + apply str_in_In in Hin. apply Hused in Hin.
      destruct (IH order used Hused) as (m & Hm & Hnew & Hnd & Hall).
      exists m. split; [exact Hm |]. split; [| split; [exact Hnd |]].
      * intros x Hx. destruct (Hnew x Hx). split; [now right | assumption].
      * intros x [<- | Hx]; [apply in_or_app; now left | now apply Hall].
    + apply str_in_not_In in Hin.
      assert (Hnotin : ~ In tok order) by (intros H; apply Hin, Hused, H).
      destruct (IH (order ++ [tok]) (tok :: used)) as (m & Hm & Hnew & Hnd & Hall).
      { intros x. cbn [In]. rewrite in_app_iff, Hused. cbn [In]. tauto. }
      exists (tok :: m). rewrite Hm, <- app_assoc. cbn [app].
      split; [reflexivity |]. split; [| split].
      * intros x [<- | Hx]; [split; [now left | exact Hnotin] |].
        destruct (Hnew x Hx) as [Hxt Hxo]. split; [now right |].
        intros Hxo'. apply Hxo. apply in_or_app. now left.
      * constructor; [| exact Hnd].
        intros Htm. destruct (Hnew tok Htm) as [_ Hno]. apply Hno.
        apply in_or_app. right. now left.
      * intros x [<- | Hx].
        -- apply in_or_app. right. now left.
        -- specialize (Hall x Hx). rewrite <- app_assoc in Hall. exact Hall.
Qed.

(** A line with exactly one ["B"] and known tokens only is kept as typed. *)
Lemma prompt_order_valid rs cs words :
  let avail := "B"%string :: (map Resistor.name rs ++ map Capacitor.name cs) in
  words <> [] -> count_occ string_dec words "B"%string = 1%nat ->
  (forall x, In x words -> In x avail) ->
  exists missing,
    prompt_order rs cs words = words ++ missing /\
    (forall x, In x missing -> In x avail /\ ~ In x words) /\
    NoDup missing /\
    (forall x, In x avail -> In x (words ++ missing)).
Proof.
  intros avail Hne Hb Hallowed. unfold prompt_order. rewrite prompt_tokens. fold avail.
  destruct words as [| w words]; [contradiction |].
  rewrite Hb. cbn [Nat.eqb negb].
  destruct (existsb (fun tok => negb (str_in tok avail)) (w :: words)) eqn:Hbad.
  - apply existsb_exists in Hbad. destruct Hbad as (x & Hx & Hnot).
    apply Hallowed, str_in_In in Hx. rewrite Hx in Hnot. discriminate.
  - apply (append_missing_spec avail (w :: words) (w :: words)). tauto.
Qed.

(** The three outcomes of [prompt_order]. *)
Lemma prompt_order_cases rs cs words :
  let avail := "B"%string :: (map Resistor.name rs ++ map Capacitor.name cs) in
  prompt_order rs cs words = avail \/
  (words <> [] /\ count_occ string_dec words "B"%string = 1%nat /\
   (forall x, In x words -> In x avail) /\
   exists missing,
     prompt_order rs cs words = words ++ missing /\
     (forall x, In x missing -> In x avail /\ ~ In x words) /\
     NoDup missing /\
     (forall x, In x avail -> In x (words ++ missing))).
Proof.
  intros avail. unfold prompt_order. rewrite prompt_tokens. fold avail.
  destruct words as [| w words]; [now left |].
  set (order := w :: words).
  destruct (Nat.eqb_spec (count_occ string_dec order "B"%string) 1) as [Hb | Hb];
    cbn [negb]; [| now left].
  destruct (existsb (fun tok => negb (str_in tok avail)) order) eqn:Hbad; [now left |].
  right. split; [discriminate |]. split; [exact Hb |].
  assert (Hallowed : forall x, In x order -> In x avail).
  { intros x Hx. apply str_in_In.
    destruct (str_in x avail) eqn:E; [reflexivity |].
    assert (existsb (fun tok => negb (str_in tok avail)) order = true)
      by (apply existsb_exists; exists x; split; [exact Hx | now rewrite E]).
    congruence. }
  split; [exact Hallowed |].
  apply (append_missing_spec avail order order). tauto.
Qed.

(** X16. Whatever is typed, the order returned uses exactly the available
    tokens: every one of ["B"] and the component names occurs in it, and
    nothing else does.  For a blank line, a line without exactly one ["B"],
    or one with an unknown token, it is the default order (["B"], the
    resistors, the capacitors).  For any other line it is the line as
    typed, repeated tokens included, followed by the tokens the line left
    out, each once. *)
Theorem prompt_order_uses_available_tokens rs cs words :
  let avail := "B"%string :: (map Resistor.name rs ++ map Capacitor.name cs) in
  let res := prompt_order rs cs words in
  (forall tok, In tok res <-> In tok avail) /\
  (words = [] \/ count_occ string_dec words "B"%string <> 1%nat \/
   (exists tok, In tok words /\ ~ In tok avail) -> res = avail) /\
  (words <> [] -> count_occ string_dec words "B"%string = 1%nat ->
   (forall tok, In tok words -> In tok avail) ->
   exists missing, res = words ++ missing /\ NoDup missing /\
     (forall tok, In tok missing -> ~ In tok words)).
Proof.
  intros avail res.
  destruct (prompt_order_cases rs cs words) as [Hdef | (Hne & Hb & Hallowed & m & Hm & Hnew & Hnd & Hall)];
    fold avail in Hdef || fold avail in Hallowed, Hnew, Hall; fold res in Hdef || fold res in Hm.
  - split; [rewrite Hdef; tauto |]. split; [intros _; exact Hdef |].
    intros Hne Hb Hallowed.
    destruct (prompt_order_valid rs cs words Hne Hb Hallowed) as (m & Hm & Hnew & Hnd & _).
    exists m. fold res in Hm. split; [exact Hm |]. split; [exact Hnd |].
    intros tok Hin. now apply Hnew.
  - split; [| split].
    + intros tok. rewrite Hm. split; [| apply Hall].
      rewrite in_app_iff. intros [H | H]; [now apply Hallowed | now apply Hnew].
    + intros [E | [Hcount | (tok & Hin & Hnot)]];
        [contradiction | contradiction | elim Hnot; now apply Hallowed].
    + intros _ _ _. exists m. split; [exact Hm |]. split; [exact Hnd |].
      intros tok Hin. now apply Hnew.
Qed.

(** X17. When the component names are distinct and none is ["B"], and the
    line typed repeats no token, the order returned is a rearrangement of
    the available tokens: each is drawn exactly once. *)
Theorem prompt_order_is_permutation rs cs words :
  let avail := "B"%string :: (map Resistor.name rs ++ map Capacitor.name cs) in
  NoDup avail -> NoDup words ->
  Permutation (prompt_order rs cs words) avail.
Proof.
  intros avail Havail Hwords.
  destruct (prompt_order_cases rs cs words) as [Hdef | (Hne & Hb & Hallowed & m & Hm & Hnew & Hnd & Hall)];
    fold avail in Hdef || fold avail in Hallowed, Hnew, Hall.
  - rewrite Hdef. apply Permutation_refl.
  - rewrite Hm. apply NoDup_Permutation; [| exact Havail |].
    + apply NoDup_app; [exact Hwords | exact Hnd |].
      intros x Hx Hxm. destruct (Hnew x Hxm) as [_ Hno]. contradiction.
    + intros x. split; [| apply Hall].
      rewrite in_app_iff. intros [H | H]; [now apply Hallowed | now apply Hnew].
Qed.

Lemma prompt_order_is_permutation_witness :
  Permutation
    (prompt_order example_resistors example_capacitors ["R2"%string; "B"%string; "C1"%string])
    ["B"%string; "R1"%string; "R2"%string; "R3"%string; "C1"%string; "C2"%string].
Proof.
  apply (prompt_order_is_permutation example_resistors example_capacitors
           ["R2"%string; "B"%string; "C1"%string]).
  - cbn. repeat constructor; cbn; intuition discriminate.
  - repeat constructor; cbn; intuition discriminate.
Defined.

End PromptFacts.

(** ** Turtle rendering *)

Section RendererFacts.

Import TurtleRenderer.

Lemma last_nonempty_default {A : Type} (x : A) (xs : list A) (d d' : A) :
  last (x :: xs) d = last (x :: xs) d'.
Proof.
  revert x. induction xs as [| y ys IH]; intros x; [reflexivity |].
  cbn [last] in *. apply IH.
Qed.

(** A run of [goto]s with the pen down draws the chain from the turtle's
    position through the targets. *)
Lemma goto_chain {A : Type} (f : Turtle.t -> A -> Turtle.t) (v : A -> Point) :
  (forall s k, f s k = Turtle.goto s (fst (v k)) (snd (v k))) ->
  forall ks s, Turtle.isdown s = true ->
    Turtle.strokes (fold_left f ks s) =
      Turtle.strokes s ++ chain (Turtle.pos s :: map v ks) /\
    Turtle.pos (fold_left f ks s) = last (map v ks) (Turtle.pos s) /\
    Turtle.isdown (fold_left f ks s) = true.
Proof.
  intros Hf. induction ks as [| k ks IH]; intros s Hdown.
  - cbn. rewrite app_nil_r. auto.
  - cbn [fold_left map]. rewrite Hf.
    destruct (IH (Turtle.goto s (fst (v k)) (snd (v k)))) as (Hs & Hp & Hd).
    { cbn. exact Hdown. }
    rewrite Hs, Hp, Hd. unfold Turtle.goto at 1 2. cbn [Turtle.strokes Turtle.pos].
    rewrite Hdown, <- surjective_pairing, <- app_assoc.
    split; [reflexivity |]. split; [| reflexivity].
    destruct (map v ks) as [| q qs].
    + cbn. symmetry. apply surjective_pairing.
    + cbn [last]. apply last_nonempty_default.
Qed.

Lemma chain_snoc (a b : Point) (vs : list Point) :
  chain (a :: vs ++ [b]) = chain (a :: vs) ++ [(last vs a, b)].
Proof.
  revert a. induction vs as [| v vs IH]; intros a; [reflexivity |].
  change (chain (a :: (v :: vs) ++ [b])) with ((a, v) :: chain (v :: vs ++ [b])).
  change (chain (a :: v :: vs)) with ((a, v) :: chain (v :: vs)).
  rewrite IH. cbn [app]. do 3 f_equal.
  destruct vs as [| w ws]; [reflexivity |].
  change (last (v :: w :: ws) a) with (last (w :: ws) a).
  f_equal. apply last_nonempty_default.
Qed.

Lemma chain_length (pts : list Point) : length (chain pts) = (length pts - 1)%nat.
Proof.
  unfold chain. rewrite length_combine. destruct pts; cbn [tl length]; lia.
Qed.

Lemma draw_polyline_cons (self : t) (p : Point) (pts : list Point) :
  exists self', draw_polyline self (p :: pts) = Ok self' /\
    Turtle.strokes (wire self') = Turtle.strokes (wire self) ++ chain (p :: pts) /\
    Turtle.pos (wire self') = last pts p /\
    sym self' = sym self.
Proof.
  unfold draw_polyline. cbn [index nth_error bind tl].
  eexists. split; [reflexivity |]. cbn [wire sym].
  destruct (goto_chain (fun w q => Turtle.goto w (fst q) (snd q)) (fun q => q)
              ltac:(reflexivity) pts
              (Turtle.down (Turtle.goto (Turtle.up (wire self)) (fst p) (snd p))))
    as (Hs & Hp & _); [reflexivity |].
  rewrite map_id in Hs, Hp. rewrite Hs, Hp. cbn [Turtle.strokes Turtle.pos Turtle.down
    Turtle.goto Turtle.up Turtle.isdown]. rewrite <- surjective_pairing.
  split; [reflexivity |]. split; reflexivity.
Qed.

(** X18. [draw_polyline] raises [IndexError] on an empty point list; on a
    non-empty one it moves the wire turtle to the first point without
    drawing and then draws the chain through the points, one stroke per
    pair of consecutive points, ending at the last point; the symbol
    turtle is not touched. *)
Theorem draw_polyline_chain (self : t) :
  draw_polyline self [] = Raise IndexError /\
  forall p pts,
    exists self', draw_polyline self (p :: pts) = Ok self' /\
      Turtle.strokes (wire self') = Turtle.strokes (wire self) ++ chain (p :: pts) /\
      length (chain (p :: pts)) = length pts /\
      Turtle.pos (wire self') = last pts p /\
      sym self' = sym self.
Proof.
  split; [reflexivity |]. intros p pts.
  destruct (draw_polyline_cons self p pts) as (self' & Hok & Hs & Hp & Hsym).
  exists self'. split; [exact Hok |]. split; [exact Hs |].
  split; [| split; assumption].
  rewrite chain_length. cbn [length]. lia.
Qed.

Lemma draw_wire_ok (self : t) (outer_pts inner_pts : list Point) :
  outer_pts <> [] -> inner_pts <> [] ->
  exists self', draw_wire self outer_pts inner_pts = Ok self' /\
    Turtle.strokes (wire self') =
      Turtle.strokes (wire self) ++ chain outer_pts ++ chain inner_pts /\
    sym self' = sym self.
Proof.
  intros Ho Hi. unfold draw_wire.
  destruct outer_pts as [| p pts]; [contradiction |].
  destruct inner_pts as [| q qs]; [contradiction |].
  destruct (draw_polyline_cons self p pts) as (self1 & -> & Hs1 & _ & Hsym1).
  cbn [bind].
  destruct (draw_polyline_cons self1 q qs) as (self2 & -> & Hs2 & _ & Hsym2).
  exists self2. split; [reflexivity |].
  rewrite Hs2, Hs1, Hsym2, Hsym1, <- app_assoc. split; reflexivity.
Qed.

(** X22. [draw_wire] raises [IndexError] when one of the two outlines has
    no point; otherwise it draws the chain of the outer outline and then
    the chain of the inner one, with no stroke joining the two, and leaves
    the symbol turtle alone. *)
Theorem draw_wire_two_chains (self : t) (outer_pts inner_pts : list Point) :
  (outer_pts = [] \/ inner_pts = [] ->
   draw_wire self outer_pts inner_pts = Raise IndexError) /\
  (outer_pts <> [] -> inner_pts <> [] ->
   exists self', draw_wire self outer_pts inner_pts = Ok self' /\
     Turtle.strokes (wire self') =
       Turtle.strokes (wire self) ++ chain outer_pts ++ chain inner_pts /\
     sym self' = sym self).
Proof.
  unfold draw_wire. split.
  - intros [-> | ->]; [reflexivity |].
    destruct outer_pts as [| p pts]; [reflexivity |].
    destruct (draw_polyline_cons self p pts) as (self1 & -> & _). reflexivity.
  - apply draw_wire_ok.
Qed.

Lemma plate_strokes nx ny s cx cy len :
  Turtle.strokes (plate nx ny s cx cy len) =
    Turtle.strokes s ++
      [((cx - nx * (len / 2), cy - ny * (len / 2)),
        (cx + nx * (len / 2), cy + ny * (len / 2)))].
Proof. reflexivity. Qed.

(** A plate drawn across the wire direction [(ux, uy)] around [(cx, cy)]. *)
Lemma plate_geometry ux uy cx cy len :
  let st := ((cx - - uy * (len / 2), cy - ux * (len / 2)),
             (cx + - uy * (len / 2), cy + ux * (len / 2))) in
  stroke_mid st = (cx, cy) /\
  stroke_dot st ux uy = 0 /\
  (ux * ux + uy * uy = 1 -> stroke_length st = Rabs len).
Proof.
  cbv zeta. unfold stroke_mid, stroke_dot, stroke_length. cbn [fst snd].
  split; [f_equal; lra |]. split; [lra |].
  intros Hunit. unfold hypot.
  replace ((cx + - uy * (len / 2) - (cx - - uy * (len / 2))) *
           (cx + - uy * (len / 2) - (cx - - uy * (len / 2))) +
           (cy + ux * (len / 2) - (cy - ux * (len / 2))) *
           (cy + ux * (len / 2) - (cy - ux * (len / 2))))
    with (Rsqr len * (ux * ux + uy * uy)) by (unfold Rsqr; lra).
  rewrite Hunit, Rmult_1_r. apply sqrt_Rsqr_abs.
Qed.

(** X19. [draw_battery_at] adds exactly two strokes with the symbol turtle
    and leaves the wire turtle alone.  The strokes are centred on the wire
    at [plate_gap] before and after the anchor, they are perpendicular to
    the direction given, and for a direction of length 1 their lengths are
    [|short|] and [|long|]. *)
Theorem battery_plates (self : t) (x y ux uy plate_gap short long : R) :
  let self' := draw_battery_at self x y ux uy plate_gap short long in
  wire self' = wire self /\
  exists p1 p2,
    Turtle.strokes (sym self') = Turtle.strokes (sym self) ++ [p1; p2] /\
    stroke_mid p1 = (x - ux * plate_gap, y - uy * plate_gap) /\
    stroke_mid p2 = (x + ux * plate_gap, y + uy * plate_gap) /\
    stroke_dot p1 ux uy = 0 /\ stroke_dot p2 ux uy = 0 /\
    (ux * ux + uy * uy = 1 ->
     stroke_length p1 = Rabs short /\ stroke_length p2 = Rabs long).
Proof.
  cbv zeta. unfold draw_battery_at. cbn [wire sym].
  split; [reflexivity |].
  rewrite !plate_strokes, <- app_assoc. cbn [app].
  do 2 eexists. split; [reflexivity |].
  destruct (plate_geometry ux uy (x - ux * plate_gap) (y - uy * plate_gap) short)
    as (Hm1 & Hd1 & Hl1).
  destruct (plate_geometry ux uy (x + ux * plate_gap) (y + uy * plate_gap) long)
    as (Hm2 & Hd2 & Hl2).
  repeat split; auto.
Qed.

(** X20. [draw_capacitor_at] adds exactly two strokes, perpendicular to the
    direction given and centred on the wire at [gap] before and after the
    anchor; for a direction of length 1 both have the length [|plate|] and
    their centres are [2 * |gap|] apart. *)
Theorem capacitor_plates (self : t) (x y ux uy gap plate_len : R) :
  let self' := draw_capacitor_at self x y ux uy gap plate_len in
  wire self' = wire self /\
  exists p1 p2,
    Turtle.strokes (sym self') = Turtle.strokes (sym self) ++ [p1; p2] /\
    stroke_mid p1 = (x - ux * gap, y - uy * gap) /\
    stroke_mid p2 = (x + ux * gap, y + uy * gap) /\
    stroke_dot p1 ux uy = 0 /\ stroke_dot p2 ux uy = 0 /\
    (ux * ux + uy * uy = 1 ->
     stroke_length p1 = Rabs plate_len /\ stroke_length p2 = Rabs plate_len /\
     stroke_length (stroke_mid p1, stroke_mid p2) = 2 * Rabs gap).
Proof.
  cbv zeta. unfold draw_capacitor_at. cbn [wire sym].
  split; [reflexivity |].
  rewrite !plate_strokes, <- app_assoc. cbn [app].
  do 2 eexists. split; [reflexivity |].
  destruct (plate_geometry ux uy (x - ux * gap) (y - uy * gap) plate_len)
    as (Hm1 & Hd1 & Hl1).
  destruct (plate_geometry ux uy (x + ux * gap) (y + uy * gap) plate_len)
    as (Hm2 & Hd2 & Hl2).
  split; [exact Hm1 |]. split; [exact Hm2 |]. split; [exact Hd1 |]. split; [exact Hd2 |].
  intros Hunit. split; [now apply Hl1 |]. split; [now apply Hl2 |].
  rewrite Hm1, Hm2. unfold stroke_length, hypot. cbn [fst snd].
  replace ((x + ux * gap - (x - ux * gap)) * (x + ux * gap - (x - ux * gap)) +
           (y + uy * gap - (y - uy * gap)) * (y + uy * gap - (y - uy * gap)))
    with (Rsqr (2 * gap) * (ux * ux + uy * uy)) by (unfold Rsqr; lra).
  rewrite Hunit, Rmult_1_r, sqrt_Rsqr_abs. apply Rabs_double.
Qed.

Lemma range_from_length a b : length (range_from a b) = Z.to_nat (b - a).
Proof. unfold range_from. now rewrite length_map, length_seq. Qed.

Lemma range_from_nth a b i :
  (i < Z.to_nat (b - a))%nat -> nth i (range_from a b) 0%Z = (a + Z.of_nat i)%Z.
Proof.
  intros Hi. unfold range_from.
  rewrite (nth_indep _ 0%Z ((fun j => (a + Z.of_nat j)%Z) 0%nat))
    by (now rewrite length_map, length_seq).
  rewrite (map_nth (fun j => (a + Z.of_nat j)%Z)), seq_nth by exact Hi. reflexivity.
Qed.

Lemma parity_test k : (k mod 2 =? 1)%Z = Z.odd k.
Proof.
  rewrite Zmod_odd. destruct (Z.odd k); reflexivity.
Qed.

Lemma draw_resistor_ok (self : t) (x y ux uy length : R) (zigzags : Z) (amp : R) :
  zigzags <> 0%Z ->
  let start := (x - ux * (length / 2), y - uy * (length / 2)) in
  let stop := (x + ux * (length / 2), y + uy * (length / 2)) in
  exists self' corners,
    draw_resistor_at self x y ux uy length zigzags amp = Ok self' /\
    wire self' = wire self /\
    Turtle.strokes (sym self') =
      Turtle.strokes (sym self) ++ chain (start :: corners ++ [stop]) /\
    Datatypes.length corners = Z.to_nat (zigzags * 2 - 1) /\
    forall k, (1 <= k < zigzags * 2)%Z ->
      let side := if Z.odd k then 1 else -1 in
      nth (Z.to_nat (k - 1)) corners (0, 0) =
        (fst start + IZR k / IZR (zigzags * 2) * (fst stop - fst start)
           + - uy * amp * side,
         snd start + IZR k / IZR (zigzags * 2) * (snd stop - snd start)
           + ux * amp * side).
Proof.
  intros Hz. cbv zeta. unfold draw_resistor_at.
  assert (Hsteps : IZR (zigzags * 2) <> 0) by (apply not_0_IZR; lia).
  rewrite rdiv_ok by exact Hsteps. cbn [bind].
  set (x1 := x - ux * (length / 2)). set (y1 := y - uy * (length / 2)).
  set (x2 := x + ux * (length / 2)). set (y2 := y + uy * (length / 2)).
  set (stepL := length / IZR (zigzags * 2)).
  set (v := fun k : Z =>
              (x1 + ux * (IZR k * stepL)
                 + - uy * amp * IZR (if (k mod 2 =? 1)%Z then 1 else -1),
               y1 + uy * (IZR k * stepL)
                 + ux * amp * IZR (if (k mod 2 =? 1)%Z then 1 else -1))).
  set (s0 := Turtle.down (Turtle.goto (Turtle.up (sym self)) x1 y1)).
  destruct (goto_chain (zigzag_step x1 y1 ux uy (- uy) ux stepL amp) v
              ltac:(reflexivity) (range_from 1 (zigzags * 2)) s0)
    as (Hs & Hp & Hd); [reflexivity |].
  set (corners := map v (range_from 1 (zigzags * 2))) in *.
  eexists. exists corners. split; [reflexivity |]. cbn [wire sym].
  split; [reflexivity |].
  split; [| split].
  - unfold Turtle.goto at 1. cbn [Turtle.strokes]. rewrite Hd, Hs, Hp.
    cbn [s0 Turtle.strokes Turtle.pos Turtle.down Turtle.goto Turtle.up Turtle.isdown].
    rewrite <- app_assoc. f_equal. symmetry. apply chain_snoc.
  - unfold corners. now rewrite length_map, range_from_length.
  - intros k Hk. unfold corners.
    rewrite (nth_indep _ (0, 0) (v 0%Z))
      by (rewrite length_map, range_from_length; lia).
    rewrite (map_nth v), range_from_nth by lia.
    replace (1 + Z.of_nat (Z.to_nat (k - 1)))%Z with k by lia.
    unfold v. rewrite parity_test. cbn [fst snd].
    assert (Hside : IZR (if Z.odd k then 1 else -1) = (if Z.odd k then 1 else -1))
      by (destruct (Z.odd k); reflexivity).
    rewrite Hside. unfold stepL, x1, y1, x2, y2.
    generalize (if Z.odd k then 1 else -1). intros side.
    apply injective_projections; cbn [fst snd]; field; exact Hsteps.
Qed.

(** X21. [draw_resistor_at] raises [ZeroDivisionError] for [zigzags = 0],
    before the turtle moves.  Otherwise it draws, with the symbol turtle
    only, one connected chain from [length/2] before the anchor to
    [length/2] after it along the direction given, through
    [2 * zigzags - 1] corners (none when [zigzags < 0]); the [k]-th corner
    is the point at the fraction [k / (2 * zigzags)] of the way, moved
    sideways by [amp] to one side for odd [k] and to the other for even
    [k]. *)
Theorem resistor_zigzag (self : t) (x y ux uy length : R) (zigzags : Z) (amp : R) :
  (zigzags = 0%Z ->
   draw_resistor_at self x y ux uy length zigzags amp = Raise ZeroDivisionError) /\
  (zigzags <> 0%Z ->
   let start := (x - ux * (length / 2), y - uy * (length / 2)) in
   let stop := (x + ux * (length / 2), y + uy * (length / 2)) in
   exists self' corners,
     draw_resistor_at self x y ux uy length zigzags amp = Ok self' /\
     wire self' = wire self /\
     Turtle.strokes (sym self') =
       Turtle.strokes (sym self) ++ chain (start :: corners ++ [stop]) /\
     Datatypes.length corners = Z.to_nat (zigzags * 2 - 1) /\
     forall k, (1 <= k < zigzags * 2)%Z ->
       let side := if Z.odd k then 1 else -1 in
       nth (Z.to_nat (k - 1)) corners (0, 0) =
         (fst start + IZR k / IZR (zigzags * 2) * (fst stop - fst start)
            + - uy * amp * side,
          snd start + IZR k / IZR (zigzags * 2) * (snd stop - snd start)
            + ux * amp * side)).
Proof.
  split.
  - intros ->. unfold draw_resistor_at. cbn [Z.mul]. now rewrite rdiv_zero.
  - apply draw_resistor_ok.
Qed.

Lemma resistor_zigzag_witness :
  exists self' corners,
    resistor_default init 0 0 1 0 = Ok self' /\
    Turtle.strokes (sym self') =
      chain ((0 - 1 * (28 / 2), 0 - 0 * (28 / 2)) :: corners
             ++ [(0 + 1 * (28 / 2), 0 + 0 * (28 / 2))]) /\
    Datatypes.length corners = 9%nat.
Proof.
  destruct (resistor_zigzag init 0 0 1 0 28 5 4) as (_ & Hdraw).
  destruct (Hdraw ltac:(discriminate)) as (self' & corners & Hok & _ & Hs & Hlen & _).
  exists self', corners. split; [exact Hok |]. split; [exact Hs | exact Hlen].
Defined.

Lemma TurtleRenderer_plate_length nx ny s cx cy len :
  Datatypes.length (Turtle.strokes (plate nx ny s cx cy len)) =
    S (Datatypes.length (Turtle.strokes s)).
Proof.
  rewrite plate_strokes, length_app. cbn [Datatypes.length]. lia.
Qed.

End RendererFacts.

(** ** The static scene *)

Section SceneFacts.

Lemma draw_token_strokes (renderer : TurtleRenderer.t) (d : string * (R * R * R * R)) :
  exists renderer', draw_token renderer d = Ok renderer' /\
    TurtleRenderer.wire renderer' = TurtleRenderer.wire renderer /\
    length (Turtle.strokes (TurtleRenderer.sym renderer')) =
      (length (Turtle.strokes (TurtleRenderer.sym renderer)) + strokes_of_token (fst d))%nat.
Proof.
  destruct d as [tok [[[x y] ux] uy]]. unfold draw_token, strokes_of_token. cbn [fst snd].
  destruct (String.eqb tok "B").
  - eexists. split; [reflexivity |]. split; [reflexivity |].
    unfold TurtleRenderer.battery_default, TurtleRenderer.draw_battery_at.
    cbn [TurtleRenderer.sym]. rewrite !TurtleRenderer_plate_length. lia.
  - destruct (String.prefix "R" tok).
    + unfold TurtleRenderer.resistor_default.
      destruct (draw_resistor_ok renderer x y ux uy 28 5 4 ltac:(discriminate))
        as (r' & corners & Hok & Hw & Hs & Hlen & _).
      exists r'. split; [exact Hok |]. split; [exact Hw |].
      rewrite Hs, length_app, chain_length. cbn [length]. rewrite length_app, Hlen.
      change (Z.to_nat (5 * 2 - 1)) with 9%nat. cbn [length]. lia.
    + destruct (String.prefix "C" tok).
      * eexists. split; [reflexivity |]. split; [reflexivity |].
        unfold TurtleRenderer.capacitor_default, TurtleRenderer.draw_capacitor_at.
        cbn [TurtleRenderer.sym]. rewrite !TurtleRenderer_plate_length. lia.
      * exists renderer. split; [reflexivity |]. split; [reflexivity | lia].
Qed.

Lemma foldM_draw_tokens (drawn : list (string * (R * R * R * R))) : forall renderer,
  exists renderer', foldM draw_token drawn renderer = Ok renderer' /\
    TurtleRenderer.wire renderer' = TurtleRenderer.wire renderer /\
    length (Turtle.strokes (TurtleRenderer.sym renderer')) =
      (length (Turtle.strokes (TurtleRenderer.sym renderer))
       + list_sum (map strokes_of_token (map fst drawn)))%nat.
Proof.
  induction drawn as [| d drawn IH]; intros renderer.
  - exists renderer. split; [reflexivity |]. split; [reflexivity |].
    cbn [map list_sum fold_right]. lia.
  - destruct (draw_token_strokes renderer d) as (r1 & H1 & Hw1 & Hs1).
    destruct (IH r1) as (r2 & H2 & Hw2 & Hs2).
    exists r2. cbn [foldM]. rewrite H1. cbn [bind].
    split; [exact H2 |]. split; [congruence |].
    rewrite Hs2, Hs1. cbn [map list_sum fold_right]. fold (list_sum (map strokes_of_token (map fst drawn))). lia.
Qed.

(** X23. Up to the animation loop [Canvas.run] raises nothing, whatever the
    template and the order.  The wire turtle draws the outer and the inner
    outline, eight strokes, and nothing else; the symbol turtle draws two
    strokes for the token ["B"], ten for any other token that starts with
    ["R"], two for one that starts with ["C"], and none for any other
    token. *)
Theorem run_static_scene (renderer : TurtleRenderer.t) (template : RectLoopTemplate.t)
    (order : list string) (random : nat -> R) :
  exists renderer' sc,
    run_static renderer template order random = Ok (renderer', sc) /\
    Canvas.run_setup template order random = Ok sc /\
    Turtle.strokes (TurtleRenderer.wire renderer') =
      Turtle.strokes (TurtleRenderer.wire renderer)
      ++ chain (RectLoopTemplate.outer_path template)
      ++ chain (RectLoopTemplate.inner_path template) /\
    length (chain (RectLoopTemplate.outer_path template)
            ++ chain (RectLoopTemplate.inner_path template)) = 8%nat /\
    length (Turtle.strokes (TurtleRenderer.sym renderer')) =
      (length (Turtle.strokes (TurtleRenderer.sym renderer))
       + list_sum (map strokes_of_token order))%nat.
Proof.
  unfold run_static. cbv zeta.
  destruct (draw_wire_ok renderer (RectLoopTemplate.outer_path template)
              (RectLoopTemplate.inner_path template)) as (r2 & Hwire & Hs2 & Hsym2);
    [discriminate | discriminate |].
  rewrite Hwire. cbn [bind].
  destruct (run_setup_drawn template order random)
    as (sc & cs & Hsc & _ & _ & Hlen & HP).
  rewrite Hsc. cbn [bind].
  destruct (foldM_draw_tokens (Canvas.drawn sc) r2) as (r3 & -> & Hw3 & Hs3).
  cbn [bind]. exists r3, sc. split; [reflexivity |]. split; [reflexivity |].
  split; [| split].
  - rewrite Hw3, Hs2. reflexivity.
  - reflexivity.
  - rewrite Hs3, Hsym2.
    rewrite (drawn_tokens _ order cs (Canvas.drawn sc) (fun ts d H => proj1 H) Hlen HP).
    reflexivity.
Qed.

End SceneFacts.
